(** * Finalizer manager and helm controller of operator-sdk: a shallow embedding

    Sources embedded here:
    - [pkg/finalizer/finalizer.go]: [Manager], [RegisterFinalizer], [Finalize],
      [FinalizeOne], [Reconcile], [ReconcileOne];
    - [pkg/helm/controller/controller.go]: [NewUninstallFinalizer], the
      registration done by [Add], [dependentPredicate] and [releaseHook].

    The Go code is sequentialised: the [sync.RWMutex] sections only guard map
    reads and writes, so a single-threaded run takes the same branches. *)

From stdpp Require Import base strings list gmap sets.

(** Go [error] values.  Sentinels are compared by identity in the source
    ([err != release.ErrNotFound]), so each sentinel is a constructor of its
    own; [errors.New(msg)] made elsewhere is [ErrorString msg]. *)
Inductive error :=
  | FinalizerErrNotFound
  | ReleaseErrNotFound
  | ErrorString (msg : string).

Global Instance error_eq_dec : EqDecision error.
Proof. solve_decision. Defined.

(** [err.Error()] *)
Definition Error (e : error) : string :=
  match e with
  | FinalizerErrNotFound => "finalizer not found"
  | ReleaseErrNotFound => "release not found"
  | ErrorString msg => msg
  end.

(** ** pkg/finalizer *)
Module Finalizer.

(** [type Finalizable interface { runtime.Object; GetFinalizers() []string;
    SetFinalizers([]string) }].  A Go slice shares its backing array with
    whoever else holds it, and the interface leaves open whether
    [GetFinalizers] hands out a copy of the resource's list (as
    [*unstructured.Unstructured], the implementation the helm controller
    passes, does) or the resource's own slice (as a type that embeds
    [metav1.ObjectMeta] does).  [StoreFinalizers l r] is the resource [r]
    once the caller has written into the slice it was handed, [l] being what
    the backing array then holds over the length that was handed out: it is
    [r] for a resource that hands out a copy, and [r] with [l] as its list
    for a resource that hands out its own slice. *)
Class Finalizable (R : Type) := {
  GetFinalizers : R → list string;
  SetFinalizers : list string → R → R;
  StoreFinalizers : list string → R → R
}.

(** What an implementation of the interface owes its callers: a list that
    was set is the list that is read. *)
Class FinalizableLaws (R : Type) `{Finalizable R} := {
  GetFinalizers_SetFinalizers :
    ∀ (l : list string) (r : R), GetFinalizers (SetFinalizers l r) = l
}.

(** The calls the manager makes on its collaborators, in order. *)
Inductive event :=
  | CallFinalize (name : string)
  | CallSetFinalizers (l : list string).

Global Instance event_eq_dec : EqDecision event.
Proof. solve_decision. Defined.


Section Manager.
Context {R W : Type} `{Finalizable R}.

(** [type Finalizer interface { Finalize(Finalizable) error }]: an action
    receives the resource (a pointer in Go, so it may change it) and acts
    on the world [W] outside it. *)
Definition Finalizer : Type := R → W → option error * R * W.

(** [type Manager struct { mutex sync.RWMutex; finalizers map[string]Finalizer }] *)
Record Manager := { finalizers : gmap string Finalizer }.

Definition NewManager : Manager := {| finalizers := ∅ |}.

Definition RegisterFinalizer (name : string) (f : Finalizer) (fm : Manager)
  : Manager :=
  {| finalizers := <[name := f]> (finalizers fm) |}.

(** The outcome of a manager call: the returned value, the resource and
    the world as the call leaves them, and the calls it made. *)
Record result (A : Type) := Result {
  ret : A;
  obj : R;
  env : W;
  calls : list event
}.
Global Arguments Result {A} _ _ _ _.
Global Arguments ret {A} _.
Global Arguments obj {A} _.
Global Arguments env {A} _.
Global Arguments calls {A} _.

Definition log_call {A} (ev : event) (o : result A) : result A :=
  Result (ret o) (obj o) (env o) (ev :: calls o).

(** [append(toFinalize[0:i], toFinalize[i+1:len(toFinalize)]...)].  The
    capacity of [toFinalize[0:i]] is that of [toFinalize], so [append]
    writes in place: the elements after index [i] move down by one in the
    backing array and the array's entry at [len(toFinalize)-1] stays what it
    was.  [stale] is what the array holds behind [toFinalize], up to the
    length the resource handed out.  Returns the new [toFinalize] and the
    new [stale]. *)
Definition remove_in_place (i : nat) (toFinalize stale : list string)
  : list string * list string :=
  let toFinalize' := take i toFinalize ++ drop (S i) toFinalize in
  (toFinalize', drop (length toFinalize') toFinalize ++ stale).

(** The loop of [Finalize]:
    [for i := 0; i < len(toFinalize); { ... }].  [toFinalize ++ stale] is
    what the backing array of the slice [GetFinalizers] handed out holds,
    over the length handed out; every in-place [append] reaches the resource
    through [StoreFinalizers].  The actions are taken not to write into that
    slice themselves.  [fuel] bounds the number of iterations; [None] only
    when it runs out. *)
Fixpoint Finalize_loop (fm : Manager) (fuel i : nat)
    (toFinalize stale : list string) (r : R) (w : W)
  : option (result (option error)) :=
  match toFinalize !! i with
  | None =>
      Some (Result None (SetFinalizers toFinalize r) w
              [CallSetFinalizers toFinalize])
  | Some name =>
      match fuel with
      | O => None
      | S fuel =>
          match finalizers fm !! name with
          | Some f =>
              match f r w with
              | (Some err, r', w') =>
                  Some (Result (Some err) r' w' [CallFinalize name])
              | (None, r', w') =>
                  let '(toFinalize', stale') :=
                    remove_in_place i toFinalize stale in
                  log_call (CallFinalize name) <$>
                    Finalize_loop fm fuel i toFinalize' stale'
                      (StoreFinalizers (toFinalize' ++ stale') r') w'
              end
          | None => Finalize_loop fm fuel (S i) toFinalize stale r w
          end
      end
  end.

Definition Finalize (fm : Manager) (r : R) (w : W)
  : option (result (option error)) :=
  let toFinalize := GetFinalizers r in
  Finalize_loop fm (length toFinalize) 0 toFinalize [] r w.

(** The same loop as a recursion on the names not yet visited: [kept] is
    [toFinalize[0:i]] and [rest] is [toFinalize[i:]].  [Finalize_loop_rec]
    below shows that the loop computes it. *)
Fixpoint Finalize_rec (fm : Manager) (kept rest stale : list string)
    (r : R) (w : W) : result (option error) :=
  match rest with
  | [] => Result None (SetFinalizers kept r) w [CallSetFinalizers kept]
  | name :: rest =>
      match finalizers fm !! name with
      | Some f =>
          match f r w with
          | (Some err, r', w') => Result (Some err) r' w' [CallFinalize name]
          | (None, r', w') =>
              let stale' := drop (length rest) (name :: rest) ++ stale in
              log_call (CallFinalize name)
                (Finalize_rec fm kept rest stale'
                   (StoreFinalizers ((kept ++ rest) ++ stale') r') w')
          end
      | None => Finalize_rec fm (kept ++ [name]) rest stale r w
      end
  end.

(** A sequence of [RegisterFinalizer] calls on a new manager. *)
Definition register_all (regs : list (string * Finalizer)) : Manager :=
  foldl (λ fm reg, RegisterFinalizer reg.1 reg.2 fm) NewManager regs.

(** Whether [name] has a registered action: the [ok] of
    [f, ok := fm.finalizers[name]]. *)
Definition registered (fm : Manager) (name : string) : Prop :=
  is_Some (finalizers fm !! name).

Global Instance registered_dec fm name : Decision (registered fm name).
Proof. unfold registered. apply _. Defined.

(** The loop of [FinalizeOne]:
    [for i := 0; i < len(toFinalize); i++ { if name == toFinalize[i] { ...; break } }].
    Its in-place [append] is followed at once by [SetFinalizers(toFinalize)],
    after which the resource holds the new list whether or not it shares
    the slice. *)
Fixpoint FinalizeOne_loop (name : string) (fuel i : nat)
    (toFinalize : list string) : option (list string) :=
  match toFinalize !! i with
  | None => Some toFinalize
  | Some x =>
      match fuel with
      | O => None
      | S fuel =>
          if decide (name = x)
          then Some (take i toFinalize ++ drop (S i) toFinalize)
          else FinalizeOne_loop name fuel (S i) toFinalize
      end
  end.

Definition FinalizeOne (fm : Manager) (name : string) (r : R) (w : W)
  : option (result (option error)) :=
  match finalizers fm !! name with
  | None => Some (Result (Some FinalizerErrNotFound) r w [])
  | Some f =>
      match f r w with
      | (Some err, r', w') => Some (Result (Some err) r' w' [CallFinalize name])
      | (None, r', w') =>
          let toFinalize := GetFinalizers r' in
          toFinalize' ← FinalizeOne_loop name (length toFinalize) 0 toFinalize;
          Some (Result None (SetFinalizers toFinalize' r') w'
                  [CallFinalize name; CallSetFinalizers toFinalize'])
      end
  end.

(** One step of [for f := range fm.finalizers] in [Reconcile], on the
    locals [(added, finalizers)]. *)
Definition Reconcile_step (existingFinalizers : gset string)
    (acc : bool * list string) (f : string) : bool * list string :=
  if decide (f ∈ existingFinalizers) then acc else (true, acc.2 ++ [f]).

(** The locals [(added, finalizers)] of [Reconcile] when its loop ends.
    Go ranges over a map in an unspecified order; [map_to_list] fixes one. *)
Definition Reconcile_locals (fm : Manager) (r : R) : bool * list string :=
  let finalizers0 := GetFinalizers r in
  let existingFinalizers : gset string := list_to_set finalizers0 in
  foldl (Reconcile_step existingFinalizers) (false, finalizers0)
    (map_to_list (finalizers fm)).*1.

(** [Reconcile] returns [added, nil]; the local [finalizers] it appended to
    is dropped: the source has no [SetFinalizers] call here. *)
Definition Reconcile (fm : Manager) (r : R) (w : W)
  : result (bool * option error) :=
  let '(added, _) := Reconcile_locals fm r in
  Result (added, None) r w [].

(** [for _, f := range finalizers { if f == name { return false, nil } }] *)
Fixpoint ReconcileOne_found (name : string) (finalizers : list string) : bool :=
  match finalizers with
  | [] => false
  | f :: rest => if decide (f = name) then true else ReconcileOne_found name rest
  end.

Definition ReconcileOne (name : string) (r : R) (w : W)
  : result (bool * option error) :=
  let finalizers := GetFinalizers r in
  if ReconcileOne_found name finalizers
  then Result (false, None) r w []
  else
    let finalizers := finalizers ++ [name] in
    Result (true, None) (SetFinalizers finalizers r) w
      [CallSetFinalizers finalizers].

End Manager.

Global Arguments Finalizer : clear implicits.
Global Arguments Manager _ _ : clear implicits.
Global Arguments result _ _ _ : clear implicits.

End Finalizer.

(** ** pkg/helm/controller *)
Module Controller.
Import Finalizer.

(** Go's multiple return [(T, error)] of a call that can fail. *)
Inductive outcome (A : Type) :=
  | Ok (a : A)
  | Fail (err : error).
Global Arguments Ok {A} _.
Global Arguments Fail {A} _.

(** *** Status conditions ([pkg/helm/internal/types], not among the sources) *)

(** Modelled from the spec: the condition types of [types] are missing; the
    source names [types.ConditionDeployed] and [types.ConditionReleaseFailed],
    the spec's deployed and failed conditions.  Each constant is a
    constructor of its own. *)
Inductive HelmAppConditionType :=
  | ConditionDeployed
  | ConditionReleaseFailed
  | ConditionOther (name : string).

Global Instance HelmAppConditionType_eq_dec : EqDecision HelmAppConditionType.
Proof. solve_decision. Defined.

(** Modelled from the spec: the status values of [types] are missing; the
    spec has a status in True, False, Unknown. *)
Inductive ConditionStatus := StatusTrue | StatusFalse | StatusUnknown.

Global Instance ConditionStatus_eq_dec : EqDecision ConditionStatus.
Proof. solve_decision. Defined.

(** Modelled from the spec: the reasons of [types] are missing; the source
    names [types.ReasonUninstallError] and [types.ReasonUninstallSuccessful],
    the latter being the spec's reason "uninstall successful". *)
Inductive HelmAppConditionReason :=
  | ReasonNone
  | ReasonUninstallError
  | ReasonUninstallSuccessful
  | ReasonOther (name : string).

Global Instance HelmAppConditionReason_eq_dec : EqDecision HelmAppConditionReason.
Proof. solve_decision. Defined.

(** Modelled from the spec: the declaration of [types.HelmAppCondition] is
    missing; the spec gives a condition as the tuple (type, status, reason,
    message, last-transition-time). *)
Record HelmAppCondition := {
  Type_ : HelmAppConditionType;
  Status : ConditionStatus;
  Reason : HelmAppConditionReason;
  Message : string;
  LastTransitionTime : Z
}.

Global Instance HelmAppCondition_eq_dec : EqDecision HelmAppCondition.
Proof. solve_decision. Defined.

(** Modelled from the spec: the declaration of [types.HelmAppStatus] is
    missing; the spec gives a status block as a release name and a list of
    conditions. *)
Record HelmAppStatus := {
  ReleaseName : string;
  Conditions : list HelmAppCondition
}.

Global Instance HelmAppStatus_eq_dec : EqDecision HelmAppStatus.
Proof. solve_decision. Defined.

(** Modelled from the spec: [HelmAppStatus.SetCondition] is missing.  At most
    one condition per type is kept; setting a condition whose status is
    unchanged keeps the last-transition-time, a changed status (or a new type)
    takes the current time [now]. *)
Fixpoint SetCondition_in (now : Z) (c : HelmAppCondition)
    (conds : list HelmAppCondition) : list HelmAppCondition :=
  match conds with
  | [] =>
      [ {| Type_ := Type_ c; Status := Status c; Reason := Reason c;
           Message := Message c; LastTransitionTime := now |} ]
  | x :: rest =>
      if decide (Type_ x = Type_ c)
      then {| Type_ := Type_ c; Status := Status c; Reason := Reason c;
              Message := Message c;
              LastTransitionTime :=
                if decide (Status x = Status c)
                then LastTransitionTime x else now |} :: rest
      else x :: SetCondition_in now c rest
  end.

Definition SetCondition (now : Z) (c : HelmAppCondition) (s : HelmAppStatus)
  : HelmAppStatus :=
  {| ReleaseName := ReleaseName s;
     Conditions := SetCondition_in now c (Conditions s) |}.

(** Modelled from the spec: [HelmAppStatus.RemoveCondition] is missing.  The
    spec has the failure condition cleared: no condition of that type stays. *)
Definition RemoveCondition (t : HelmAppConditionType) (s : HelmAppStatus)
  : HelmAppStatus :=
  {| ReleaseName := ReleaseName s;
     Conditions := filter (λ c, Type_ c ≠ t) (Conditions s) |}.

(** The condition of type [t], if the status holds one. *)
Definition GetCondition (t : HelmAppConditionType) (s : HelmAppStatus)
  : option HelmAppCondition :=
  head (filter (λ c, Type_ c = t) (Conditions s)).

(** *** Unstructured objects *)

(** The content of a [map[string]interface{}]: JSON leaves, slices and maps,
    and the typed [*types.HelmAppStatus] the controller stores under
    ["status"].  [float64] leaves are left out: Go's [==] on them is not
    Leibniz equality.  A nil map or slice is not told apart from an empty
    one. *)
#[warnings="-register-all"]
Inductive value :=
  | VNull
  | VBool (b : bool)
  | VInt64 (n : Z)
  | VString (s : string)
  | VSlice (l : list value)
  | VMap (m : gmap string value)
  | VStatus (s : HelmAppStatus).

(** [reflect.DeepEqual] on this content is equality, decided here. *)
Global Instance value_eq_dec : EqDecision value.
Proof.
  refine (fix go (x y : value) {struct x} : Decision (x = y) :=
    let _ : EqDecision value := go in
    match x, y with
    | VNull, VNull => left _
    | VBool a, VBool b => cast_if (decide (a = b))
    | VInt64 a, VInt64 b => cast_if (decide (a = b))
    | VString a, VString b => cast_if (decide (a = b))
    | VSlice a, VSlice b => cast_if (decide (a = b))
    | VMap a, VMap b => cast_if (decide (a = b))
    | VStatus a, VStatus b => cast_if (decide (a = b))
    | _, _ => right _
    end); abstract congruence.
Defined.

(** [type Unstructured struct { Object map[string]interface{} }] *)
Record Unstructured := { Object : gmap string value }.

Global Instance Unstructured_eq_dec : EqDecision Unstructured.
Proof. solve_decision. Defined.

(** [unstructured.RemoveNestedField(obj, f1, f2)] of apimachinery: nothing
    happens unless [obj[f1]] is a map. *)
Definition RemoveNestedField (obj : gmap string value) (f1 f2 : string)
  : gmap string value :=
  match obj !! f1 with
  | Some (VMap m) => <[f1 := VMap (delete f2 m)]> obj
  | _ => obj
  end.

(** [unstructured.SetNestedField(obj, v, f1, f2)] of apimachinery: a missing
    [obj[f1]] is created; one that is not a map is an error, which the
    [Unstructured] setters drop. *)
Definition SetNestedField (obj : gmap string value) (v : value) (f1 f2 : string)
  : gmap string value :=
  match obj !! f1 with
  | Some (VMap m) => <[f1 := VMap (<[f2 := v]> m)]> obj
  | Some _ => obj
  | None => <[f1 := VMap {[f2 := v]}]> obj
  end.

(** [Unstructured.SetResourceVersion] of apimachinery: the empty version
    removes the field. *)
Definition SetResourceVersion (resourceVersion : string) (u : Unstructured)
  : Unstructured :=
  if decide (resourceVersion = "")
  then {| Object := RemoveNestedField (Object u) "metadata" "resourceVersion" |}
  else {| Object := SetNestedField (Object u) (VString resourceVersion)
                      "metadata" "resourceVersion" |}.

(** [delete(u.Object, key)] *)
Definition delete_field (key : string) (u : Unstructured) : Unstructured :=
  {| Object := delete key (Object u) |}.

(** [u.Object[key] = v] *)
Definition set_field (key : string) (v : value) (u : Unstructured) : Unstructured :=
  {| Object := <[key := v]> (Object u) |}.

(** *** The uninstall finalizer *)

(** [rpb.Release], of which the controller reads the manifest. *)
Record Release := { Manifest : string }.

Section UninstallFinalizer.
Context {W : Type}.

(** [r.ManagerFactory.NewManager(o).UninstallRelease(ctx)]: the rendering
    collaborator, returning Go's pair [(release, err)]. *)
Variable UninstallRelease : Unstructured → W → option Release * option error * W.

(** [types.StatusFor(o)], not among the sources. *)
Variable StatusFor : Unstructured → HelmAppStatus.

(** [r.updateResourceStatus(o, status)], not among the sources: the status
    write, which may fail and may refresh the object it is given. *)
Variable updateResourceStatus :
  Unstructured → HelmAppStatus → W → option error * Unstructured * W.

(** [metav1.Now()] as read by [SetCondition]. *)
Variable Now : W → Z.

(** The deferred [o.Object["status"] = status]. *)
Definition deferred_status (status : HelmAppStatus) (o : Unstructured)
  : Unstructured :=
  set_field "status" (VStatus status) o.

(** [NewUninstallFinalizer(r)].  The resource is an [Unstructured] by its
    type here, so the failed type assertion of the source has no case; the
    log lines and the printed diff are left out. *)
Definition NewUninstallFinalizer : Finalizer Unstructured W :=
  λ o w,
    let status := StatusFor o in
    let '(uninstalledRelease, err, w) := UninstallRelease o w in
    match err with
    | Some e =>
        if decide (e ≠ ReleaseErrNotFound)
        then
          let status :=
            SetCondition (Now w)
              {| Type_ := ConditionReleaseFailed; Status := StatusTrue;
                 Reason := ReasonUninstallError; Message := Error e;
                 LastTransitionTime := 0 |} status in
          let '(_, o, w) := updateResourceStatus o status w in
          (Some e, deferred_status status o, w)
        else
          let status := RemoveCondition ConditionReleaseFailed status in
          let '(ret, o, w) := updateResourceStatus o status w in
          (ret, deferred_status status o, w)
    | None =>
        let status := RemoveCondition ConditionReleaseFailed status in
        let status :=
          SetCondition (Now w)
            {| Type_ := ConditionDeployed; Status := StatusFalse;
               Reason := ReasonUninstallSuccessful; Message := "";
               LastTransitionTime := 0 |} status in
        let '(ret, o, w) := updateResourceStatus o status w in
        (ret, deferred_status status o, w)
    end.

(** The finalizer manager as [Add] leaves it:
    [r.FinalizerManager.RegisterFinalizer("uninstall-helm-release", NewUninstallFinalizer(r))]
    on [finalizer.NewManager()]. *)
Definition Add_FinalizerManager : Manager Unstructured W :=
  RegisterFinalizer "uninstall-helm-release" NewUninstallFinalizer NewManager.

End UninstallFinalizer.

(** *** The predicate on dependent resources *)

(** [event.CreateEvent], [event.DeleteEvent] and [event.UpdateEvent], with the
    objects already asserted to be [*unstructured.Unstructured]. *)
Record CreateEvent := { CreateEvent_Object : Unstructured }.
Record DeleteEvent := { DeleteEvent_Object : Unstructured }.
Record UpdateEvent := { ObjectOld : Unstructured; ObjectNew : Unstructured }.

Definition CreateFunc (e : CreateEvent) : bool := false.

Definition DeleteFunc (e : DeleteEvent) : bool := true.

(** What [UpdateFunc] does to each side before comparing:
    [delete(o.Object, "status"); o.SetResourceVersion("")]. *)
Definition strip (o : Unstructured) : Unstructured :=
  SetResourceVersion "" (delete_field "status" o).

(** [DeepCopy] gives the closure objects of its own; here values are never
    shared, so the copies are the objects. *)
Definition UpdateFunc (e : UpdateEvent) : bool :=
  let old := strip (ObjectOld e) in
  let new := strip (ObjectNew e) in
  if decide (Object old = Object new) then false else true.

(** *** The release hook of [watchDependentResources] *)

(** [schema.GroupVersionKind] and [schema.GroupKind] *)
Record GroupVersionKind := GVK { Group : string; Version : string; Kind : string }.
Record GroupKind := GK { GK_Group : string; GK_Kind : string }.

Global Instance GroupVersionKind_eq_dec : EqDecision GroupVersionKind.
Proof. solve_decision. Defined.

Global Instance GroupVersionKind_countable : Countable GroupVersionKind.
Proof.
  refine (inj_countable' (λ g, (Group g, Version g, Kind g))
            (λ t, GVK t.1.1 t.1.2 t.2) _).
  by intros [].
Defined.

Global Instance GroupKind_eq_dec : EqDecision GroupKind.
Proof. solve_decision. Defined.

(** [gvk.GroupKind()] *)
Definition GroupKind_of (gvk : GroupVersionKind) : GroupKind :=
  GK (Group gvk) (Kind gvk).

(** [meta.RESTScopeNameNamespace] and [meta.RESTScopeNameRoot] *)
Inductive RESTScopeName := RESTScopeNameNamespace | RESTScopeNameRoot.

Global Instance RESTScopeName_eq_dec : EqDecision RESTScopeName.
Proof. solve_decision. Defined.

(** One answer of [dec.Decode(&u.Object)]: a document or a decode error.
    A decoder is the list of its answers; once exhausted it says [io.EOF]. *)
Inductive decoded :=
  | Doc (u : Unstructured)
  | Bad (err : error).

(** The calls the hook makes on the cluster. *)
Inductive hook_event :=
  | CallRESTMapping (gk : GroupKind) (version : string)
  | CallWatch (gvk : GroupVersionKind).

Global Instance hook_event_eq_dec : EqDecision hook_event.
Proof. solve_decision. Defined.

(** What a run of the hook leaves: the returned error, the closure's
    [watches] map, the world and the calls made. *)
Record hook_result {W : Type} := HookResult {
  hook_ret : option error;
  hook_watches : gset GroupVersionKind;
  hook_env : W;
  hook_calls : list hook_event
}.
Global Arguments hook_result : clear implicits.

Definition hook_log {W} (evs : list hook_event) (o : hook_result W)
  : hook_result W :=
  HookResult W (hook_ret o) (hook_watches o) (hook_env o) (evs ++ hook_calls o).

Section ReleaseHook.
Context {W : Type}.

(** [yaml.NewDecoder(bytes.NewBufferString(manifest))] *)
Variable NewDecoder : string → list decoded.

(** [u.GroupVersionKind()] of apimachinery. *)
Variable GroupVersionKind_of : Unstructured → GroupVersionKind.

(** [mgr.GetRESTMapper().RESTMapping(gk, version)], read for the scope name
    of the mapping: the cluster's kind-mapping metadata. *)
Variable RESTMapping : GroupKind → string → outcome RESTScopeName.

(** [c.Watch(&source.Kind{Type: &u}, &crthandler.EnqueueRequestForOwner{OwnerType: owner}, dependentPredicate)] *)
Variable Watch : GroupVersionKind → W → option error * W.

(** [owner.GroupVersionKind()], the kind the reconciler is made for. *)
Variable owner : GroupVersionKind.

(** The [for { ... }] of [releaseHook], one decoder answer per iteration. *)
Fixpoint releaseHook_loop (dec : list decoded)
    (watches : gset GroupVersionKind) (w : W) : hook_result W :=
  match dec with
  | [] => HookResult W None watches w []
  | Bad err :: _ => HookResult W (Some err) watches w []
  | Doc u :: dec =>
      let gvk := GroupVersionKind_of u in
      if decide (gvk ∈ watches) then releaseHook_loop dec watches w
      else
        match RESTMapping (GroupKind_of gvk) (Version gvk) with
        | Fail err =>
            HookResult W (Some err) watches w
              [CallRESTMapping (GroupKind_of gvk) (Version gvk)]
        | Ok depMapping =>
            match RESTMapping (GroupKind_of owner) (Version owner) with
            | Fail err =>
                HookResult W (Some err) watches w
                  [CallRESTMapping (GroupKind_of gvk) (Version gvk);
                   CallRESTMapping (GroupKind_of owner) (Version owner)]
            | Ok ownerMapping =>
                let depClusterScoped :=
                  bool_decide (depMapping = RESTScopeNameRoot) in
                let ownerClusterScoped :=
                  bool_decide (ownerMapping = RESTScopeNameRoot) in
                if negb ownerClusterScoped && depClusterScoped
                then
                  hook_log
                    [CallRESTMapping (GroupKind_of gvk) (Version gvk);
                     CallRESTMapping (GroupKind_of owner) (Version owner)]
                    (releaseHook_loop dec ({[gvk]} ∪ watches) w)
                else
                  match Watch gvk w with
                  | (Some err, w) =>
                      HookResult W (Some err) watches w
                        [CallRESTMapping (GroupKind_of gvk) (Version gvk);
                         CallRESTMapping (GroupKind_of owner) (Version owner);
                         CallWatch gvk]
                  | (None, w) =>
                      hook_log
                        [CallRESTMapping (GroupKind_of gvk) (Version gvk);
                         CallRESTMapping (GroupKind_of owner) (Version owner);
                         CallWatch gvk]
                        (releaseHook_loop dec ({[gvk]} ∪ watches) w)
                  end
            end
        end
  end.

(** The kinds of the documents a decoder yields. *)
Definition doc_kinds (dec : list decoded) : list GroupVersionKind :=
  flat_map (λ d, match d with
                 | Doc u => [GroupVersionKind_of u]
                 | Bad _ => []
                 end) dec.

(** What a call made by the loop can be, given the map it started from: a
    lookup of the owner or of a kind not in the map, or a watch of a kind
    that is not in the map and is not a cluster-scoped dependent of a
    namespace-scoped owner. *)
Definition hook_allowed (watches : gset GroupVersionKind) (ev : hook_event)
  : Prop :=
  match ev with
  | CallRESTMapping gk version =>
      (gk = GroupKind_of owner ∧ version = Version owner)
      ∨ ∃ gvk, (gvk ∉ watches) ∧ gk = GroupKind_of gvk ∧ version = Version gvk
  | CallWatch gvk =>
      (gvk ∉ watches)
      ∧ ¬ (RESTMapping (GroupKind_of owner) (Version owner)
             = Ok RESTScopeNameNamespace
           ∧ RESTMapping (GroupKind_of gvk) (Version gvk) = Ok RESTScopeNameRoot)
  end.

Definition releaseHook (release : Release)
    (watches : gset GroupVersionKind) (w : W) : hook_result W :=
  releaseHook_loop (NewDecoder (Manifest release)) watches w.

End ReleaseHook.

End Controller.

(** ** Stand-ins for the collaborators, for running the code on inputs *)
Module Doubles.
Import Finalizer Controller.

(** A resource that is nothing but its finalizer list and a generation,
    and that hands out a copy of the list. *)
Record Resource := { Finalizers : list string; Generation : nat }.

Global Instance Resource_Finalizable : Finalizable Resource := {
  GetFinalizers := Finalizers;
  SetFinalizers l r := {| Finalizers := l; Generation := Generation r |};
  StoreFinalizers l r := r
}.

Global Instance Resource_FinalizableLaws : FinalizableLaws Resource.
Proof. by constructor. Defined.

(** The world of the stand-in actions counts the attempts made so far. *)
Definition succeeds : Finalizer Resource nat := λ r w, (None, r, w).

Definition boom : error := ErrorString "boom".

(** Fails on the first attempt and succeeds from the second on. *)
Definition fails_once : Finalizer Resource nat :=
  λ r w,
    match w with
    | O => (Some boom, r, 1)
    | S _ => (None, r, S w)
    end.

Definition regs_ab : list (string * Finalizer Resource nat) :=
  [("a", succeeds); ("b", fails_once)].

Definition fm_ab : Manager Resource nat := register_all regs_ab.

Definition res (l : list string) : Resource :=
  {| Finalizers := l; Generation := 1 |}.

(** A resource that hands out its own slice, as a type that embeds
    [metav1.ObjectMeta] does ([GetFinalizers] returns [meta.Finalizers] and
    [SetFinalizers] assigns it): what the caller writes into the slice is
    what the resource then holds. *)
Record ObjectMeta := { Meta_Finalizers : list string }.

Global Instance ObjectMeta_Finalizable : Finalizable ObjectMeta := {
  GetFinalizers := Meta_Finalizers;
  SetFinalizers l r := {| Meta_Finalizers := l |};
  StoreFinalizers l r := {| Meta_Finalizers := l |}
}.

Global Instance ObjectMeta_FinalizableLaws : FinalizableLaws ObjectMeta.
Proof. by constructor. Defined.

Definition meta (l : list string) : ObjectMeta := {| Meta_Finalizers := l |}.

(** The stand-in actions of [fm_ab], on an [ObjectMeta]. *)
Definition meta_succeeds : Finalizer ObjectMeta nat := λ r w, (None, r, w).

Definition meta_fails_once : Finalizer ObjectMeta nat :=
  λ r w,
    match w with
    | O => (Some boom, r, 1)
    | S _ => (None, r, S w)
    end.

Definition fm_meta : Manager ObjectMeta nat :=
  register_all [("a", meta_succeeds); ("b", meta_fails_once)].

(** Stand-ins for the collaborators of the helm controller.  The world
    counts the calls made on the cluster. *)

Definition no_status : HelmAppStatus := {| ReleaseName := ""; Conditions := [] |}.

Definition StatusFor_double (o : Unstructured) : HelmAppStatus :=
  match Object o !! "status" with
  | Some (VStatus s) => s
  | _ => no_status
  end.

(** Uninstalls on the first call, finds no release on the second and fails
    from then on. *)
Definition UninstallRelease_double (o : Unstructured) (w : nat)
  : option Release * option error * nat :=
  match w with
  | 0 => (Some {| Manifest := "" |}, None, 1)
  | 1 => (None, Some ReleaseErrNotFound, 2)
  | _ => (None, Some (ErrorString "tiller unreachable"), S w)
  end.

Definition updateResourceStatus_double (o : Unstructured) (status : HelmAppStatus)
    (w : nat) : option error * Unstructured * nat :=
  (None, set_field "status" (VStatus status) o, w).

Definition Now_double (w : nat) : Z := 42.

(** A finalizer list kept under ["metadata"]["finalizers"], read and written
    with the nested-field helpers. *)
Definition string_of_value (v : value) : option string :=
  match v with
  | VString s => Some s
  | _ => None
  end.

Global Instance Unstructured_Finalizable : Finalizable Unstructured := {
  GetFinalizers o :=
    match Object o !! "metadata" with
    | Some (VMap m) =>
        match m !! "finalizers" with
        | Some (VSlice l) => default [] (mapM string_of_value l)
        | _ => []
        end
    | _ => []
    end;
  SetFinalizers l o :=
    {| Object := SetNestedField (Object o) (VSlice (VString <$> l))
                   "metadata" "finalizers" |};
  StoreFinalizers l o := o
}.

Definition nginx_cr : Unstructured :=
  {| Object :=
       {[ "kind" := VString "Nginx";
          "metadata" :=
            VMap {[ "name" := VString "web";
                    "finalizers" := VSlice [VString "uninstall-helm-release"] ]} ]} |}.

Definition object_of_kind (kind rv : string) (replicas : Z) : Unstructured :=
  {| Object :=
       {[ "kind" := VString kind;
          "metadata" := VMap {[ "name" := VString "web";
                                "resourceVersion" := VString rv ]};
          "spec" := VMap {[ "replicas" := VInt64 replicas ]};
          "status" := VMap {[ "observed" := VString rv ]} ]} |}.

(** Reads the kind off the ["kind"] field and leaves group and version
    empty. *)
Definition GroupVersionKind_double (u : Unstructured) : GroupVersionKind :=
  match Object u !! "kind" with
  | Some (VString k) => GVK "" "v1" k
  | _ => GVK "" "" ""
  end.

(** Namespaces are cluster-scoped, every other kind is namespaced. *)
Definition RESTMapping_double (gk : GroupKind) (version : string)
  : outcome RESTScopeName :=
  if decide (GK_Kind gk = "Namespace") then Ok RESTScopeNameRoot
  else Ok RESTScopeNameNamespace.

Definition Watch_double (gvk : GroupVersionKind) (w : nat) : option error * nat :=
  (None, S w).

Definition yaml_error : error := ErrorString "yaml: line 9: did not find expected key".

(** Three manifests by name: two documents; three documents with a
    namespace among them; one document followed by a document that does not
    decode. *)
Definition NewDecoder_double (manifest : string) : list decoded :=
  if decide (manifest = "deployment, service") then
    [Doc (object_of_kind "Deployment" "1" 2); Doc (object_of_kind "Service" "1" 0)]
  else if decide (manifest = "deployment, namespace, service") then
    [Doc (object_of_kind "Deployment" "1" 2);
     Doc (object_of_kind "Namespace" "1" 0);
     Doc (object_of_kind "Service" "1" 0)]
  else if decide (manifest = "deployment, broken") then
    [Doc (object_of_kind "Deployment" "1" 2); Bad yaml_error;
     Doc (object_of_kind "Service" "1" 0)]
  else [].

Definition owner_double : GroupVersionKind := GVK "" "v1" "Nginx".

Definition three_kinds : Release :=
  {| Manifest := "deployment, namespace, service" |}.

Definition broken : Release := {| Manifest := "deployment, broken" |}.

Definition namespace_kind : GroupVersionKind := GVK "" "v1" "Namespace".

End Doubles.

(** ** Go's [strings] helpers used below *)
Module GoStrings.

(** [s[n:]] *)
Fixpoint string_drop (n : nat) (s : string) : string :=
  match n, s with
  | O, _ => s
  | S n, String _ rest => string_drop n rest
  | S _, EmptyString => EmptyString
  end.

(** [strings.HasPrefix(s, prefix)] *)
Definition HasPrefix (s prefix : string) : bool := String.prefix prefix s.

(** [strings.TrimPrefix(s, prefix)] *)
Definition TrimPrefix (s prefix : string) : string :=
  if HasPrefix s prefix then string_drop (String.length prefix) s else s.

(** [strings.Repeat(s, count)] for a count that is not negative. *)
Fixpoint Repeat (s : string) (count : nat) : string :=
  match count with
  | O => EmptyString
  | S count => s +:+ Repeat s count
  end.

(** The line feed, Go's ["\n"]. *)
Definition LF : Ascii.ascii := Ascii.ascii_of_nat 10.

(** [strings.Replace(v, "\n", new, -1)]: every line feed of [v] becomes
    [new]. *)
Fixpoint Replace_LF (v new : string) : string :=
  match v with
  | EmptyString => EmptyString
  | String c rest =>
      if Ascii.eqb c LF then new +:+ Replace_LF rest new
      else String c (Replace_LF rest new)
  end.

End GoStrings.

(** ** The OLM client: internal/olm/client *)
Module OLMClient.
Import GoStrings.

(** [var ErrOLMNotInstalled = errors.New("no existing installation found")] *)
Definition ErrOLMNotInstalled : error :=
  ErrorString "no existing installation found".

Definition pkgServerCSVOldNamePrefix : string := "packageserver.".
Definition pkgServerCSVNewName : string := "packageserver".
Definition pkgServerOLMVersionLabel : string := "olm.version".

(** [olmapiv1alpha1.ClusterServiceVersion], as far as the client reads it:
    [GetName()] and [GetLabels()], a nil map being [None]. *)
Record ClusterServiceVersion := {
  CSV_Name : string;
  CSV_Labels : option (gmap string string)
}.

Section Client.
Context {W : Type}.

(** [fmt]'s [%q] on a string. *)
Variable Quote : string → string.

(** The error of [semver.Parse(ver)]. *)
Variable semver_Parse : string → option error.

(** [apierrors.IsNotFound] and [meta.IsNoMatchError]. *)
Variable IsNotFound : error → bool.
Variable IsNoMatchError : error → bool.

(** [c.List(ctx, csvs, crclient.InNamespace(namespace))]: the listed items
    or the error. *)
Variable List_CSVs : string → W → list ClusterServiceVersion * option error.

Definition getOLMVersionFromPackageServerCSV (csv : ClusterServiceVersion)
  : string * option error :=
  let fallback :=
    let ver := TrimPrefix (CSV_Name csv) pkgServerCSVOldNamePrefix in
    let ver := TrimPrefix ver "v" in
    match semver_Parse ver with
    | None => (ver, None)
    | Some _ =>
        ("", Some (ErrorString ("no OLM version found in CSV "
                                +:+ Quote (CSV_Name csv) +:+ " spec")))
    end in
  match CSV_Labels csv with
  | Some labels =>
      match labels !! pkgServerOLMVersionLabel with
      | Some ver => (ver, None)
      | None => fallback
      end
  | None => fallback
  end.

(** The name test of the loop of [GetInstalledVersion]. *)
Definition is_pkgServerCSV (csv : ClusterServiceVersion) : bool :=
  bool_decide (CSV_Name csv = pkgServerCSVNewName)
  || HasPrefix (CSV_Name csv) pkgServerCSVOldNamePrefix.

(** [for i := range csvs.Items { ... }] of [GetInstalledVersion], on the
    local [pkgServerCSV]: the local when the loop ends, or the error it
    returns. *)
Fixpoint GetInstalledVersion_loop (items : list ClusterServiceVersion)
    (pkgServerCSV : option ClusterServiceVersion)
  : option ClusterServiceVersion + error :=
  match items with
  | [] => inl pkgServerCSV
  | csv :: items =>
      let name := CSV_Name csv in
      if is_pkgServerCSV csv then
        match pkgServerCSV with
        | Some found =>
            inr (ErrorString
                   ("more than one OLM (package server) version installed: "
                    +:+ Quote (CSV_Name found) +:+ " and " +:+ Quote name))
        | None => GetInstalledVersion_loop items (Some csv)
        end
      else GetInstalledVersion_loop items pkgServerCSV
  end.

Definition GetInstalledVersion (namespace : string) (w : W)
  : string * option error :=
  match List_CSVs namespace w with
  | (_, Some err) =>
      if IsNotFound err || IsNoMatchError err then ("", Some ErrOLMNotInstalled)
      else ("", Some (ErrorString ("failed to list CSVs in namespace "
                                   +:+ Quote namespace +:+ ": " +:+ Error err)))
  | (items, None) =>
      match GetInstalledVersion_loop items None with
      | inr err => ("", Some err)
      | inl None => ("", Some ErrOLMNotInstalled)
      | inl (Some pkgServerCSV) => getOLMVersionFromPackageServerCSV pkgServerCSV
      end
  end.

End Client.

(** [appsv1.DeploymentCondition] and [appsv1.Deployment], as far as
    [DoRolloutWait] reads them; [Spec_Replicas] is the [*int32] of the
    spec. *)
Record DeploymentCondition := {
  Cond_Type : string;
  Cond_Reason : string
}.

Record Deployment := {
  Generation : Z;
  Spec_Replicas : option Z;
  ObservedGeneration : Z;
  Status_Replicas : Z;
  UpdatedReplicas : Z;
  AvailableReplicas : Z;
  Status_Conditions : list DeploymentCondition
}.

(** [deploymentutil.GetDeploymentCondition(status, condType)] of kubectl:
    the first condition of that type. *)
Fixpoint GetDeploymentCondition (conds : list DeploymentCondition)
    (condType : string) : option DeploymentCondition :=
  match conds with
  | [] => None
  | c :: rest =>
      if decide (Cond_Type c = condType) then Some c
      else GetDeploymentCondition rest condType
  end.

Section Rollout.

(** [appsv1.DeploymentProgressing] and [deploymentutil.TimedOutReason]. *)
Variable DeploymentProgressing : string.
Variable TimedOutReason : string.

(** The closure [rolloutComplete] of [DoRolloutWait], given what
    [c.Get(ctx, key, &deployment)] returned; the log lines are left out. *)
Definition rolloutComplete (got : Deployment * option error)
  : bool * option error :=
  match got with
  | (_, Some err) => (false, Some err)
  | (deployment, None) =>
      if bool_decide (Generation deployment ≤ ObservedGeneration deployment)%Z
      then
        let cond := GetDeploymentCondition (Status_Conditions deployment)
                      DeploymentProgressing in
        if match cond with
           | Some c => bool_decide (Cond_Reason c = TimedOutReason)
           | None => false
           end
        then (false, Some (ErrorString "progress deadline exceeded"))
        else if match Spec_Replicas deployment with
                | Some replicas =>
                    bool_decide (UpdatedReplicas deployment < replicas)%Z
                | None => false
                end
        then (false, None)
        else if bool_decide (Status_Replicas deployment
                             > UpdatedReplicas deployment)%Z
        then (false, None)
        else if bool_decide (AvailableReplicas deployment
                             < UpdatedReplicas deployment)%Z
        then (false, None)
        else (true, None)
      else (false, None)
  end.

End Rollout.

(** [getName(namespace, name)], with [fmt.Sprintf("%s/%s", ...)] written
    out. *)
Definition getName (namespace name : string) : string :=
  if decide (namespace ≠ "") then namespace +:+ "/" +:+ name else name.

End OLMClient.

(** ** The OLM installer: internal/olm/installer/manager.go *)
Module Installer.

(** [type Manager struct { Client Client; Version string }], the client
    being kept as its [Namespace]. *)
Record Manager := {
  Namespace : string;
  Version : string
}.

(** The calls of the manager on its client that act on the cluster or read
    its status. *)
Inductive call :=
  | CallInstallVersion (namespace version : string)
  | CallUninstallVersion (namespace version : string)
  | CallGetStatus (namespace version : string).

Global Instance call_eq_dec : EqDecision call.
Proof. solve_decision. Defined.

(** What a method of the manager leaves: the returned error, the manager
    (the receiver is a pointer), the cluster, the calls made and what was
    printed. *)
Record result {W S : Type} := Result {
  ret : option error;
  mgr : Manager;
  env : W;
  calls : list call;
  printed : option S
}.
Global Arguments result : clear implicits.
Global Arguments Result {W S} _ _ _ _ _.

Section Manager.
Context {W S : Type}.

(** [fmt]'s [%q] on a string. *)
Variable Quote : string → string.

(** [m.Client.InstallVersion], [GetInstalledVersion], [UninstallVersion] and
    [GetStatus]. *)
Variable InstallVersion : string → string → W → option S * option error * W.
Variable GetInstalledVersion : string → W → string * option error.
Variable UninstallVersion : string → string → W → option error * W.
Variable GetStatus : string → string → W → option S * option error.

Definition Install (m : Manager) (w : W) : result W S :=
  match InstallVersion (Namespace m) (Version m) w with
  | (_, Some err, w) =>
      Result (Some err) m w [CallInstallVersion (Namespace m) (Version m)] None
  | (status, None, w) =>
      Result None m w [CallInstallVersion (Namespace m) (Version m)] status
  end.

Definition Uninstall (m : Manager) (w : W) : result W S :=
  let after (m : Manager) : result W S :=
    match UninstallVersion (Namespace m) (Version m) w with
    | (Some err, w) =>
        Result (Some err) m w [CallUninstallVersion (Namespace m) (Version m)]
          None
    | (None, w) =>
        Result None m w [CallUninstallVersion (Namespace m) (Version m)] None
    end in
  match GetInstalledVersion (Namespace m) w with
  | (version, Some err) =>
      if decide (Version m = "")
      then
        Result
          (Some (ErrorString
                   ("error getting installed OLM version (set --version to override the default version): "
                    +:+ Error err))) m w [] None
      else after m
  | (version, None) =>
      if decide (Version m ≠ "")
      then
        if decide (version ≠ Version m)
        then
          Result
            (Some (ErrorString
                     ("mismatched installed version " +:+ Quote version
                      +:+ " vs. supplied version " +:+ Quote (Version m))))
            m w [] None
        else after m
      else after {| Namespace := Namespace m; Version := version |}
  end.

Definition Status (m : Manager) (w : W) : result W S :=
  let after (m : Manager) : result W S :=
    match GetStatus (Namespace m) (Version m) w with
    | (_, Some err) =>
        Result (Some err) m w [CallGetStatus (Namespace m) (Version m)] None
    | (status, None) =>
        Result None m w [CallGetStatus (Namespace m) (Version m)] status
    end in
  match GetInstalledVersion (Namespace m) w with
  | (version, Some err) =>
      if decide (Version m = "")
      then
        Result
          (Some (ErrorString
                   ("error getting installed OLM version (set --version to override the default version): "
                    +:+ Error err))) m w [] None
      else after m
  | (version, None) =>
      if decide (Version m ≠ "")
      then
        if decide (version ≠ Version m)
        then
          Result
            (Some (ErrorString
                     ("mismatched installed version " +:+ Quote version
                      +:+ " vs. supplied version " +:+ Quote (Version m))))
            m w [] None
        else after m
      else after {| Namespace := Namespace m; Version := version |}
  end.

End Manager.

End Installer.

(** ** [apiextv1.JSONSchemaProps] *)
Module Apiext.

(** The fields the helm plugin reads or sets, [Properties] and
    [XPreserveUnknownFields] being [None] when nil, and all the other fields
    together as [other]. *)
#[warnings="-register-all"]
Inductive JSONSchemaProps {T : Type} :=
  | MkProps (schema description type : string)
      (properties : option (gmap string JSONSchemaProps))
      (xPreserveUnknownFields : option bool) (other : T).
Global Arguments JSONSchemaProps : clear implicits.

Definition Props_Schema {T} (p : JSONSchemaProps T) : string :=
  let 'MkProps schema _ _ _ _ _ := p in schema.

Definition Props_Description {T} (p : JSONSchemaProps T) : string :=
  let 'MkProps _ description _ _ _ _ := p in description.

Definition Props_Type {T} (p : JSONSchemaProps T) : string :=
  let 'MkProps _ _ type _ _ _ := p in type.

Definition Props_Properties {T} (p : JSONSchemaProps T)
  : option (gmap string (JSONSchemaProps T)) :=
  let 'MkProps _ _ _ properties _ _ := p in properties.

Definition Props_XPreserveUnknownFields {T} (p : JSONSchemaProps T)
  : option bool :=
  let 'MkProps _ _ _ _ xPreserveUnknownFields _ := p in xPreserveUnknownFields.

Definition Props_Other {T} (p : JSONSchemaProps T) : T :=
  let 'MkProps _ _ _ _ _ other := p in other.

(** [apiextv1.JSONSchemaProps{}] *)
Definition Props_zero {T} (zero : T) : JSONSchemaProps T :=
  MkProps "" "" "" None None zero.

End Apiext.

(** ** The CRD template of the helm plugin *)
Module CRDTemplate.
Import GoStrings Apiext.

(** The ["indent"] entry of [GetFuncMap]:
    [pad := strings.Repeat(" ", spaces)] and
    [return pad + strings.Replace(v, "\n", "\n"+pad, -1)].
    [None] is the panic of [strings.Repeat] on a negative count. *)
Definition indent (spaces : Z) (v : string) : option string :=
  if decide (spaces < 0)%Z then None
  else
    let pad := Repeat " " (Z.to_nat spaces) in
    Some (pad +:+ Replace_LF v (String LF pad)).

(** [file.IfExistsAction] of kubebuilder. *)
Inductive IfExistsAction := Skip | Error_ | Overwrite.

(** [resource.Resource], as far as the template reads it. *)
Record Resource := {
  Domain : string;
  Kind : string
}.

(** [type CRD struct], with the fields of the mixins it embeds. *)
Record CRD {T : Type} := {
  Path : string;
  IfExists : IfExistsAction;
  TemplateBody : string;
  Resource_ : Resource;
  CRDVersion : string;
  SpecSchema : option (JSONSchemaProps T)
}.
Global Arguments CRD : clear implicits.

Section SetTemplateDefaults.
Context {T : Type}.

(** The zero value of the other fields of a [JSONSchemaProps]. *)
Variable zero : T.

(** [filepath.Join("config", "crd", "bases", name)]. *)
Variable Join_bases : string → string.

(** [f.Resource.Replacer().Replace(path)]. *)
Variable Replace : Resource → string → string.

(** The constants [crdTemplateV1] and [crdTemplateV1Beta1]. *)
Variable crdTemplateV1 : string.
Variable crdTemplateV1Beta1 : string.

Definition SetTemplateDefaults (f : CRD T) : option error * CRD T :=
  let path :=
    if decide (Path f = "")
    then Join_bases (Domain (Resource_ f) +:+ "_%[plural].yaml")
    else Path f in
  let path := Replace (Resource_ f) path in
  let specDescription :=
    "Spec defines the desired state of " +:+ Kind (Resource_ f) in
  let schema :=
    match SpecSchema f with
    | None => MkProps "" specDescription "object" None (Some true) zero
    | Some s =>
        if decide (Props_Description s = "")
        then MkProps (Props_Schema s) specDescription (Props_Type s)
               (Props_Properties s) (Props_XPreserveUnknownFields s)
               (Props_Other s)
        else s
    end in
  let f' (body : string) :=
    {| Path := path; IfExists := Error_; TemplateBody := body;
       Resource_ := Resource_ f; CRDVersion := CRDVersion f;
       SpecSchema := Some schema |} in
  if decide (CRDVersion f = "" ∨ CRDVersion f = "v1")
  then (None, f' crdTemplateV1)
  else if decide (CRDVersion f = "v1beta1")
  then (None, f' crdTemplateV1Beta1)
  else
    (Some (ErrorString "the CRD version value must be either 'v1' or 'v1beta1'"),
     f' (TemplateBody f)).

End SetTemplateDefaults.

End CRDTemplate.

(** ** The API scaffolder of the helm plugin: [loadSchema] *)
Module Scaffolds.
Import Apiext.

(** [chart.Chart], as far as [loadSchema] reads it: [Name()], the raw
    [Schema] bytes and [Dependencies()]. *)
#[warnings="-register-all"]
Inductive Chart :=
  | MkChart (name : string) (schema : string) (dependencies : list Chart).

Definition Chart_Name (c : Chart) : string :=
  let 'MkChart name _ _ := c in name.

Definition Chart_Schema (c : Chart) : string :=
  let 'MkChart _ schema _ := c in schema.

Definition Chart_Dependencies (c : Chart) : list Chart :=
  let 'MkChart _ _ dependencies := c in dependencies.

Section LoadSchema.
Context {T : Type} `{EqDecision T}.

(** The zero value of the other fields of a [JSONSchemaProps]. *)
Variable zero : T.

(** [fmt]'s [%q] on a string. *)
Variable Quote : string → string.

(** [json.Unmarshal(bytes, schema)] on a zero schema: the schema read, or
    the error. *)
Variable Unmarshal : string → JSONSchemaProps T + error.

(** [reflect.DeepEqual] of the schema with the zero [JSONSchemaProps]. *)
Definition is_zero (p : JSONSchemaProps T) : bool :=
  bool_decide (Props_Schema p = "")
  && bool_decide (Props_Description p = "")
  && bool_decide (Props_Type p = "")
  && match Props_Properties p with None => true | Some _ => false end
  && match Props_XPreserveUnknownFields p with
     | None => true
     | Some _ => false
     end
  && bool_decide (Props_Other p = zero).

(** [schema.Properties[name] = depSchema], after the nil check that makes
    the map and sets the type. *)
Definition set_property (name : string) (depSchema schema : JSONSchemaProps T)
  : JSONSchemaProps T :=
  match Props_Properties schema with
  | None =>
      MkProps (Props_Schema schema) (Props_Description schema) "object"
        (Some {[ name := depSchema ]}) (Props_XPreserveUnknownFields schema)
        (Props_Other schema)
  | Some properties =>
      MkProps (Props_Schema schema) (Props_Description schema)
        (Props_Type schema) (Some (<[ name := depSchema ]> properties))
        (Props_XPreserveUnknownFields schema) (Props_Other schema)
  end.

(** The end of [loadSchema]: nil for a zero schema. *)
Definition loadSchema_return (schema : JSONSchemaProps T)
  : option (JSONSchemaProps T) * option error :=
  if is_zero schema then (None, None) else (Some schema, None).

(** The loop of [loadSchema] over [chrt.Dependencies()], [load] being the
    recursive call. *)
Definition loadSchema_deps
    (load : Chart → option (JSONSchemaProps T) * option error)
  : list Chart → JSONSchemaProps T
    → option (JSONSchemaProps T) * option error :=
  fix deps (dependencies : list Chart) (schema : JSONSchemaProps T) :=
    match dependencies with
    | [] => loadSchema_return schema
    | dep :: dependencies =>
        match load dep with
        | (_, Some err) => (None, Some err)
        | (None, None) => deps dependencies schema
        | (Some depSchema, None) =>
            deps dependencies (set_property (Chart_Name dep) depSchema schema)
        end
    end.

Fixpoint loadSchema (chrt : Chart)
  : option (JSONSchemaProps T) * option error :=
  let 'MkChart name raw dependencies := chrt in
  if decide (raw ≠ "")
  then
    match Unmarshal raw with
    | inr err =>
        (None, Some (ErrorString ("failed to parse chart " +:+ Quote name
                                  +:+ " schema: " +:+ Error err)))
    | inl schema =>
        loadSchema_deps loadSchema dependencies
          (MkProps "" (Props_Description schema) (Props_Type schema)
             (Props_Properties schema) (Props_XPreserveUnknownFields schema)
             (Props_Other schema))
    end
  else loadSchema_deps loadSchema dependencies (Props_zero zero).

End LoadSchema.

(** The charts of a tree: the chart itself and then, in order, the charts of
    each of its dependencies. *)
Fixpoint charts (chrt : Chart) : list Chart :=
  let 'MkChart _ _ dependencies := chrt in
  chrt :: flat_map charts dependencies.

End Scaffolds.

(** ** The logging owner handler of the ansible operator *)
Module OwnerHandler.
Import Controller.

(** [schema.GroupVersion] *)
Record GroupVersion := { GV_Group : string; GV_Version : string }.

(** [metav1.OwnerReference], as far as the handler reads it. *)
Record OwnerReference := {
  APIVersion : string;
  Ref_Kind : string;
  Ref_Name : string
}.

(** [client.Object], as far as the handler reads it:
    [GetObjectKind().GroupVersionKind().String()], [GetName()],
    [GetNamespace()] and [GetOwnerReferences()]. *)
Record Object := {
  GroupVersionKind_String : string;
  Name : string;
  Namespace : string;
  OwnerReferences : list OwnerReference
}.

(** What goes to the logger: [log.Error(err, msg, kvs...)] and
    [log.V(level).Info(msg, kvs...)]. *)
Inductive log_entry :=
  | LogError (err : error) (msg : string) (kvs : list string)
  | LogInfo (level : Z) (msg : string) (kvs : list string).

Definition is_LogInfo (e : log_entry) : bool :=
  match e with LogInfo _ _ _ => true | LogError _ _ _ => false end.

Section Handler.

(** [schema.ParseGroupVersion] *)
Variable ParseGroupVersion : string → GroupVersion * option error.

Fixpoint extractTypedOwnerReference (ownerGVK : GroupVersionKind)
    (ownerReferences : list OwnerReference)
  : option OwnerReference * list log_entry :=
  match ownerReferences with
  | [] => (None, [])
  | ownerRef :: ownerReferences =>
      let '(refGV, err) := ParseGroupVersion (APIVersion ownerRef) in
      let logged :=
        match err with
        | Some err =>
            [LogError err "Could not parse OwnerReference APIVersion"
               ["api version"; APIVersion ownerRef]]
        | None => []
        end in
      if decide (Group ownerGVK = GV_Group refGV
                 ∧ Kind ownerGVK = Ref_Kind ownerRef)
      then (Some ownerRef, logged)
      else
        let '(found, rest) :=
          extractTypedOwnerReference ownerGVK ownerReferences in
        (found, logged ++ rest)
  end.

(** [logEvent]; [ownerType] is [h.ownerType.GetObjectKind().GroupVersionKind()]
    and a nil [newObject] is [None]. *)
Definition logEvent (ownerType : GroupVersionKind) (eventType : string)
    (object : Object) (newObject : option Object) : list log_entry :=
  let '(ownerReference, logged) :=
    extractTypedOwnerReference ownerType (OwnerReferences object) in
  let '(ownerReference, logged) :=
    match ownerReference, newObject with
    | None, Some newObject =>
        let '(ownerReference, more) :=
          extractTypedOwnerReference ownerType (OwnerReferences newObject) in
        (ownerReference, logged ++ more)
    | _, _ => (ownerReference, logged)
    end in
  match ownerReference with
  | Some ownerReference =>
      let kvs :=
        ["Event type"; eventType;
         "GroupVersionKind"; GroupVersionKind_String object;
         "Name"; Name object] in
      let kvs :=
        if decide (Namespace object ≠ "")
        then kvs ++ ["Namespace"; Namespace object]
        else kvs in
      let kvs :=
        kvs ++ ["Owner APIVersion"; APIVersion ownerReference;
                "Owner Kind"; Ref_Kind ownerReference;
                "Owner Name"; Ref_Name ownerReference] in
      logged ++ [LogInfo 1 "OwnerReference handler event" kvs]
  | None => logged
  end.

End Handler.

End OwnerHandler.

(** ** Stand-ins for the runs of the further facts *)
Module Standins.
Import Finalizer Controller Doubles GoStrings OLMClient Apiext Scaffolds.

Definition conflict : error := ErrorString "the object has been modified".

(** A status write that always fails. *)
Definition updateResourceStatus_failing (o : Unstructured)
    (status : HelmAppStatus) (w : nat) : option error * Unstructured * nat :=
  (Some conflict, o, S w).

Definition deployment_kind : GroupVersionKind := GVK "" "v1" "Deployment".

(** Puts the string between two double quotes and escapes nothing. *)
Definition Quote_double (s : string) : string :=
  let quote := Ascii.ascii_of_nat 34 in
  String quote (s +:+ String quote "").

(** Takes a version for valid when it starts with a digit. *)
Definition semver_Parse_double (ver : string) : option error :=
  match ver with
  | String c _ =>
      if decide (48 ≤ Ascii.nat_of_ascii c ≤ 57) then None
      else Some (ErrorString "Invalid character(s) found in major number")
  | EmptyString => Some (ErrorString "Version string empty")
  end.

Definition no_such_error (err : error) : bool := false.

(** The cluster is the list of its CSVs, and listing them never fails. *)
Definition List_CSVs_double (namespace : string)
    (w : list ClusterServiceVersion)
  : list ClusterServiceVersion * option error :=
  (w, None).

Definition csvs_labelled : list ClusterServiceVersion :=
  [ {| CSV_Name := "etcdoperator.v0.9.4"; CSV_Labels := None |};
    {| CSV_Name := "packageserver";
       CSV_Labels := Some {[ "olm.version" := "0.17.0" ]} |} ].

(** Reads one schema by name and fails on everything else. *)
Definition Unmarshal_double (raw : string) : JSONSchemaProps unit + error :=
  if decide (raw = "replicaCount: integer")
  then
    inl (MkProps "http://json-schema.org/schema#" "" "object"
           (Some {[ "replicaCount" := MkProps "" "" "integer" None None () ]})
           None ())
  else inr (ErrorString "invalid character 'x' looking for beginning of value").

Definition db_chart : Chart := MkChart "db" "replicaCount: integer" [].

Definition db_schema : JSONSchemaProps unit :=
  MkProps "" "" "object"
    (Some {[ "replicaCount" := MkProps "" "" "integer" None None () ]})
    None ().

Definition app_chart : Chart :=
  MkChart "app" "" [MkChart "cache" "" []; db_chart].

Definition app_schema : JSONSchemaProps unit :=
  MkProps "" "" "object" (Some {[ "db" := db_schema ]}) None ().

Definition Join_bases_double (name : string) : string :=
  "config/crd/bases/" +:+ name.

(** A replacer that replaces nothing. *)
Definition Replace_double (r : CRDTemplate.Resource) (path : string)
  : string :=
  path.

(** The CRD of [scaffold] for [app_chart], its resource injected. *)
Definition app_crd : CRDTemplate.CRD unit :=
  {| CRDTemplate.Path := "";
     CRDTemplate.IfExists := CRDTemplate.Skip;
     CRDTemplate.TemplateBody := "";
     CRDTemplate.Resource_ :=
       {| CRDTemplate.Domain := "example.com"; CRDTemplate.Kind := "App" |};
     CRDTemplate.CRDVersion := "v1";
     CRDTemplate.SpecSchema := Some app_schema |}.

End Standins.

(** ** Facts about the finalizer manager *)
Module FinalizerFacts.
Import Finalizer.

Section Facts.
Context {R W : Type} `{Finalizable R}.
Implicit Types (fm : Manager R W) (r : R) (w : W) (name : string).
Implicit Types (kept rest l : list string).

Lemma lookup_kept_rest kept rest :
  (kept ++ rest) !! length kept = head rest.
Proof.
  rewrite lookup_app_r; [|lia]. replace (length kept - length kept) with 0 by lia.
  by destruct rest.
Qed.

Lemma remove_at_kept kept name rest :
  take (length kept) (kept ++ name :: rest)
    ++ drop (S (length kept)) (kept ++ name :: rest) = kept ++ rest.
Proof.
  rewrite take_app_length. f_equal.
  change (name :: rest) with ([name] ++ rest). rewrite app_assoc.
  apply drop_app_length'. rewrite length_app. simpl. lia.
Qed.

(** The loop of [Finalize] never runs out of fuel when given the length of
    the names still to visit, and computes [Finalize_rec]. *)
Lemma drop_kept_rest kept name rest :
  drop (length (kept ++ rest)) (kept ++ name :: rest)
  = drop (length rest) (name :: rest).
Proof. rewrite length_app. by apply drop_app_add'. Qed.

(** The loop of [Finalize] never runs out of fuel when given the length of
    the names still to visit, and computes [Finalize_rec]. *)
Lemma Finalize_loop_rec fm rest :
  ∀ kept stale fuel r w,
    length rest ≤ fuel →
    Finalize_loop fm fuel (length kept) (kept ++ rest) stale r w
    = Some (Finalize_rec fm kept rest stale r w).
Proof.
  induction rest as [|name rest IH]; intros kept stale fuel r w Hfuel.
  - destruct fuel; simpl; rewrite lookup_kept_rest; simpl;
      by rewrite app_nil_r.
  - destruct fuel as [|fuel]; [simpl in Hfuel; lia|].
    simpl in Hfuel. simpl. rewrite lookup_kept_rest. simpl.
    destruct (finalizers fm !! name) as [f|] eqn:Hf.
    + destruct (f r w) as [[[err|] r'] w']; [done|].
      rewrite !remove_at_kept, drop_kept_rest, IH by lia. done.
    + specialize (IH (kept ++ [name]) stale fuel r w).
      rewrite length_app in IH. simpl in IH.
      replace (length kept + 1) with (S (length kept)) in IH by lia.
      rewrite <- app_assoc in IH. simpl in IH. apply IH. lia.
Qed.

Lemma Finalize_is_rec fm r w :
  Finalize fm r w = Some (Finalize_rec fm [] (GetFinalizers r) [] r w).
Proof. unfold Finalize. by apply (Finalize_loop_rec fm _ []). Qed.

Lemma Finalize_total fm r w : is_Some (Finalize fm r w).
Proof. rewrite Finalize_is_rec. eauto. Qed.

Lemma filter_cons_registered fm name rest f :
  finalizers fm !! name = Some f →
  filter (registered fm) (name :: rest) = name :: filter (registered fm) rest
  ∧ filter (λ n, ¬ registered fm n) (name :: rest)
    = filter (λ n, ¬ registered fm n) rest.
Proof.
  intros Hf. assert (registered fm name) by (unfold registered; eauto).
  rewrite (filter_cons_True (registered fm)) by done.
  rewrite (filter_cons_False (λ n, ¬ registered fm n)) by tauto. done.
Qed.

Lemma filter_cons_unregistered fm name rest :
  finalizers fm !! name = None →
  filter (registered fm) (name :: rest) = filter (registered fm) rest
  ∧ filter (λ n, ¬ registered fm n) (name :: rest)
    = name :: filter (λ n, ¬ registered fm n) rest.
Proof.
  intros Hf.
  assert (¬ registered fm name) by (unfold registered; rewrite Hf; by intros [? ?]).
  rewrite (filter_cons_False (registered fm)) by done.
  rewrite (filter_cons_True (λ n, ¬ registered fm n)) by done. done.
Qed.

(** A pass that returns nil has run the registered names of [rest] in order
    and then written [kept] and the unregistered names of [rest]. *)
Lemma Finalize_rec_nil fm rest :
  ∀ kept stale r w,
    ret (Finalize_rec fm kept rest stale r w) = None →
    calls (Finalize_rec fm kept rest stale r w)
    = (CallFinalize <$> filter (registered fm) rest)
        ++ [CallSetFinalizers (kept ++ filter (λ n, ¬ registered fm n) rest)]
    ∧ ∃ r', obj (Finalize_rec fm kept rest stale r w)
            = SetFinalizers (kept ++ filter (λ n, ¬ registered fm n) rest) r'.
Proof.
  induction rest as [|name rest IH]; intros kept stale r w Hret; simpl in *.
  - rewrite app_nil_r. eauto.
  - destruct (finalizers fm !! name) as [f|] eqn:Hf.
    + destruct (filter_cons_registered fm name rest f Hf) as [-> ->].
      destruct (f r w) as [[[err|] r'] w']; [done|].
      simpl in *. destruct (IH kept _ _ w' Hret) as [-> Hobj]. done.
    + destruct (filter_cons_unregistered fm name rest Hf) as [-> ->].
      destruct (IH (kept ++ [name]) stale r w Hret) as [-> Hobj].
      rewrite <- app_assoc in Hobj |- *. done.
Qed.


(** For a resource that hands out a copy of its list, what every registered
    action keeps true of the resource is still true when a pass stops on an
    error. *)
Lemma Finalize_rec_err_keeps (P : R → Prop) fm rest :
  (∀ l r, StoreFinalizers l r = r) →
  (∀ name f, finalizers fm !! name = Some f → ∀ r w, P r → P (f r w).1.2) →
  ∀ kept stale r w e,
    P r →
    ret (Finalize_rec fm kept rest stale r w) = Some e →
    P (obj (Finalize_rec fm kept rest stale r w)).
Proof.
  intros Hcopy Hkeep.
  induction rest as [|name rest IH]; intros kept stale r w e HP Hret;
    simpl in *; [done|].
  destruct (finalizers fm !! name) as [f|] eqn:Hf; [|by eapply IH].
  pose proof (Hkeep name f Hf r w HP) as HP'.
  destruct (f r w) as [[[err|] r'] w']; simpl in *; [done|].
  rewrite Hcopy in Hret |- *. by eapply IH.
Qed.

(** *** Registration *)



(** *** Counting calls *)

Lemma filter_eq_not_elem_of {A} `{EqDecision A} (x : A) (l : list A) :
  x ∉ l → filter (λ y, y = x) l = [].
Proof.
  induction l as [|y l IH]; intros Hx; [done|].
  apply not_elem_of_cons in Hx as [Hne Hx].
  rewrite filter_cons_False by congruence. by apply IH.
Qed.




(** *** Finalize *)

(** The calls of a pass that returns nil: the registered names of the list,
    in order, and then the one write of the names left. *)
Lemma Finalize_nil_calls fm r w :
  ret <$> Finalize fm r w = Some None →
  ∃ out,
    Finalize fm r w = Some out
    ∧ ret out = None
    ∧ calls out
      = (CallFinalize <$> filter (registered fm) (GetFinalizers r))
          ++ [CallSetFinalizers
                (filter (λ n, ¬ registered fm n) (GetFinalizers r))]
    ∧ ∃ r', obj out
            = SetFinalizers
                (filter (λ n, ¬ registered fm n) (GetFinalizers r)) r'.
Proof.
  rewrite Finalize_is_rec. simpl. intros [= Hret].
  eexists. split; [done|]. split; [done|].
  by destruct (Finalize_rec_nil fm _ [] [] r w Hret) as [Hcalls Hobj].
Qed.

Context `{!FinalizableLaws R}.

(** A pass that returns nil, read off the resource and the calls. *)
Lemma Finalize_nil fm r w :
  ret <$> Finalize fm r w = Some None →
  ∃ out,
    Finalize fm r w = Some out
    ∧ ret out = None
    ∧ calls out
      = (CallFinalize <$> filter (registered fm) (GetFinalizers r))
          ++ [CallSetFinalizers
                (filter (λ n, ¬ registered fm n) (GetFinalizers r))]
    ∧ GetFinalizers (obj out)
      = filter (λ n, ¬ registered fm n) (GetFinalizers r).
Proof.
  intros Hnil.
  destruct (Finalize_nil_calls fm r w Hnil)
    as (out & Hout & Hret & Hcalls & r' & Hobj).
  exists out. repeat (split; [done|]).
  by rewrite Hobj, GetFinalizers_SetFinalizers.
Qed.

(** C10: when [Finalize] returns nil, the list written back, which is the
    list the resource then holds, is the original list without the names that
    have a registered action: the names without one are all kept, in their
    original order. *)
Theorem C10_Finalize_nil_writes_unregistered_names fm r w :
  ret <$> Finalize fm r w = Some None →
  ∃ out,
    Finalize fm r w = Some out
    ∧ last (calls out)
      = Some (CallSetFinalizers
                (filter (λ n, finalizers fm !! n = None) (GetFinalizers r)))
    ∧ GetFinalizers (obj out)
      = filter (λ n, finalizers fm !! n = None) (GetFinalizers r)
    ∧ GetFinalizers (obj out) `sublist_of` GetFinalizers r
    ∧ ∀ name, name ∈ GetFinalizers (obj out)
              ↔ name ∈ GetFinalizers r ∧ finalizers fm !! name = None.
Proof.
  intros Hnil.
  destruct (Finalize_nil fm r w Hnil) as (out & Hout & _ & Hcalls & Hobj).
  assert (filter (λ n, ¬ registered fm n) (GetFinalizers r)
          = filter (λ n, finalizers fm !! n = None) (GetFinalizers r)) as Heq.
  { apply list_filter_iff. intros n. unfold registered.
    rewrite <- eq_None_not_Some. done. }
  rewrite Heq in Hcalls, Hobj.
  exists out. split; [done|]. split; [by rewrite Hcalls, last_snoc|].
  split; [done|]. rewrite Hobj. split; [apply sublist_filter|].
  intros name. rewrite list_elem_of_filter. tauto.
Qed.



(** *** FinalizeOne, Reconcile, ReconcileOne *)

(** The loop of [FinalizeOne] ends within the length of the list and gives
    back the list or the list without one of its entries. *)
Lemma FinalizeOne_loop_sublist name l :
  ∀ fuel i,
    length l ≤ i + fuel →
    ∃ l', FinalizeOne_loop name fuel i l = Some l' ∧ l' `sublist_of` l.
Proof.
  induction fuel as [|fuel IH]; intros i Hlen; simpl.
  - rewrite lookup_ge_None_2 by lia. eauto.
  - destruct (l !! i) as [x|]; [|eauto].
    destruct (decide (name = x)) as [->|Hne].
    + eexists. split; [done|]. rewrite <- delete_take_drop. apply sublist_delete.
    + apply IH. lia.
Qed.

Lemma Reconcile_obj fm r w :
  obj (Reconcile fm r w) = r ∧ calls (Reconcile fm r w) = [].
Proof. unfold Reconcile. by destruct (Reconcile_locals fm r). Qed.

Lemma Reconcile_fold_added (existing : gset string) (names : list string) :
  ∀ added l,
    (foldl (Reconcile_step existing) (added, l) names).1 = true
    ↔ added = true ∨ ∃ name, name ∈ names ∧ name ∉ existing.
Proof.
  induction names as [|n names IH]; intros added l; simpl.
  - split; [by left|]. intros [?|(? & []%elem_of_nil & _)]. done.
  - unfold Reconcile_step at 2. destruct (decide (n ∈ existing)) as [Hn|Hn].
    + rewrite IH. split; intros [?|(m & Hm & Hex)]; eauto.
      * right. exists m. split; [by right|done].
      * apply elem_of_cons in Hm as [->|Hm]; [done|]. eauto.
    + rewrite IH. split; [intros _|by left].
      right. exists n. split; [by left|done].
Qed.

(** What [Reconcile] returns: [added] is true exactly when some registered
    name is missing from the resource's list. *)
Lemma Reconcile_ret fm r w :
  (ret (Reconcile fm r w)).2 = None
  ∧ ((ret (Reconcile fm r w)).1 = true
     ↔ ∃ name, registered fm name ∧ name ∉ GetFinalizers r).
Proof.
  unfold Reconcile.
  destruct (Reconcile_locals fm r) as [added l] eqn:Hloc. simpl.
  split; [done|].
  assert (added = (Reconcile_locals fm r).1) as -> by by rewrite Hloc.
  unfold Reconcile_locals. rewrite Reconcile_fold_added.
  split.
  - intros [?|(name & Hname & Hex)]; [done|]. exists name. split.
    + apply list_elem_of_fmap in Hname as ([n f] & -> & Hnf).
      apply elem_of_map_to_list in Hnf. unfold registered. simpl. eauto.
    + by rewrite elem_of_list_to_set in Hex.
  - intros (name & [f Hf] & Hex). right. exists name. split.
    + apply list_elem_of_fmap. exists (name, f). split; [done|].
      by apply elem_of_map_to_list.
    + by rewrite elem_of_list_to_set.
Qed.

Lemma ReconcileOne_found_elem_of name l :
  ReconcileOne_found name l = true ↔ name ∈ l.
Proof.
  induction l as [|f l IH]; simpl.
  - split; [done|]. by intros ?%elem_of_nil.
  - destruct (decide (f = name)) as [->|Hne].
    + split; [intros _; by left|done].
    + rewrite IH. split; [by right|].
      intros [->|]%elem_of_cons; done.
Qed.

(** X29: on a resource whose list has no duplicate names, and with
    registered actions that themselves keep it so, [FinalizeOne],
    [Reconcile] and [ReconcileOne] leave a list without duplicate names,
    and so does a [Finalize] that returns nil, whatever the resource; a
    [Finalize] that returns an error does so for a resource that hands out
    a copy of its list. *)
Theorem X29_operations_keep_list_free_of_duplicates fm name r w :
  NoDup (GetFinalizers r) →
  (∀ n f, finalizers fm !! n = Some f →
     ∀ r w, NoDup (GetFinalizers r) → NoDup (GetFinalizers (f r w).1.2)) →
  (∃ out, Finalize fm r w = Some out
          ∧ (ret out = None ∨ (∀ l r, StoreFinalizers l r = r) →
             NoDup (GetFinalizers (obj out))))
  ∧ (∃ out, FinalizeOne fm name r w = Some out ∧ NoDup (GetFinalizers (obj out)))
  ∧ NoDup (GetFinalizers (obj (Reconcile fm r w)))
  ∧ NoDup (GetFinalizers (obj (ReconcileOne name r w))).
Proof.
  intros Hnd Hkeep. repeat split.
  - rewrite Finalize_is_rec. eexists. split; [done|].
    destruct (ret (Finalize_rec fm [] (GetFinalizers r) [] r w)) as [e|] eqn:Hret.
    + intros [?|Hcopy]; [done|].
      by apply (Finalize_rec_err_keeps (λ r', NoDup (GetFinalizers r'))
                  fm (GetFinalizers r) Hcopy Hkeep [] [] r w e).
    + intros _. destruct (Finalize_rec_nil fm _ [] [] r w Hret) as [_ [r' ->]].
      rewrite GetFinalizers_SetFinalizers. simpl. by apply NoDup_filter.
  - unfold FinalizeOne. destruct (finalizers fm !! name) as [f|] eqn:Hf.
    + pose proof (Hkeep name f Hf r w Hnd) as Hnd'.
      destruct (f r w) as [[[err|] r'] w']; simpl in *; [eauto|].
      destruct (FinalizeOne_loop_sublist name (GetFinalizers r')
                  (length (GetFinalizers r')) 0) as (l' & -> & Hsub); [lia|].
      simpl. eexists. split; [done|]. simpl.
      rewrite GetFinalizers_SetFinalizers. by eapply sublist_NoDup.
    + eauto.
  - by rewrite (proj1 (Reconcile_obj fm r w)).
  - unfold ReconcileOne.
    destruct (ReconcileOne_found name (GetFinalizers r)) eqn:Hfound; [done|].
    simpl. rewrite GetFinalizers_SetFinalizers.
    apply NoDup_app. split; [done|]. split; [|apply NoDup_singleton].
    intros x Hx ->%list_elem_of_singleton.
    apply ReconcileOne_found_elem_of in Hx. congruence.
Qed.

End Facts.
End FinalizerFacts.

(** ** The finalizer manager run on stand-in resources *)
Module FinalizerRuns.
Import Finalizer Doubles FinalizerFacts.

Lemma fm_ab_lookup name f :
  finalizers fm_ab !! name = Some f → f = succeeds ∨ f = fails_once.
Proof.
  unfold fm_ab, register_all, regs_ab. simpl.
  intros Hf. apply lookup_insert_Some in Hf as [[_ <-]|[_ Hf]]; [by right|].
  apply lookup_insert_Some in Hf as [[_ <-]|[_ Hf]]; [by left|].
  by rewrite lookup_empty in Hf.
Qed.

(** Both stand-in actions leave the resource as it is. *)
Lemma fm_ab_frame name f :
  finalizers fm_ab !! name = Some f → ∀ r w, (f r w).1.2 = r.
Proof.
  intros [-> | ->]%fm_ab_lookup r w; [done|]. by destruct w.
Qed.


Lemma NoDup_xbya : NoDup (GetFinalizers (res ["x"; "b"; "y"; "a"])).
Proof. apply (bool_decide_unpack _). by vm_compute. Qed.

(** C1 at [["a"]] with ["a"] and ["b"] registered: [Reconcile] returns true
    and the resource still holds [["a"]]; called again on what the first call
    left, it returns true again.  The appended list never reaches
    [SetFinalizers]. *)
Theorem C1_Reconcile_leaves_missing_name_off_the_resource :
  Reconcile fm_ab (res ["a"]) 0 = Result (true, None) (res ["a"]) 0 []
  ∧ GetFinalizers (obj (Reconcile fm_ab (res ["a"]) 0)) = ["a"]
  ∧ ret (Reconcile fm_ab (obj (Reconcile fm_ab (res ["a"]) 0)) 0) = (true, None)
  ∧ (Reconcile_locals fm_ab (res ["a"])).2 = ["a"; "b"].
Proof. by vm_compute. Qed.




(** C9 at [["a"; "b"; "c"]] on a resource that hands out its own slice,
    with "a" succeeding and "b" failing: [Finalize] has removed "a" in place
    before it returns the error of "b", so the resource is left with
    [["b"; "c"; "c"]], the last name twice.  A resource that hands out a copy
    is left with [["a"; "b"; "c"]]. *)
Theorem C9_Finalize_error_leaves_duplicate_in_own_slice :
  NoDup (GetFinalizers (meta ["a"; "b"; "c"]))
  ∧ Finalize fm_meta (meta ["a"; "b"; "c"]) 0
    = Some (Result (Some boom) (meta ["b"; "c"; "c"]) 1
              [CallFinalize "a"; CallFinalize "b"])
  ∧ ¬ NoDup (GetFinalizers (meta ["b"; "c"; "c"]))
  ∧ Finalize fm_ab (res ["a"; "b"; "c"]) 0
    = Some (Result (Some boom) (res ["a"; "b"; "c"]) 1
              [CallFinalize "a"; CallFinalize "b"]).
Proof.
  split; [apply (bool_decide_unpack _); by vm_compute|].
  split; [by vm_compute|]. split; [|by vm_compute].
  intros Hnd. apply (bool_decide_pack _) in Hnd. by vm_compute in Hnd.
Qed.

Lemma X29_witness :
  NoDup (GetFinalizers (res ["x"; "b"; "y"; "a"]))
  ∧ (∃ out, Finalize fm_ab (res ["x"; "b"; "y"; "a"]) 0 = Some out
            ∧ NoDup (GetFinalizers (obj out)))
  ∧ (∃ out, FinalizeOne fm_ab "b" (res ["x"; "b"; "y"; "a"]) 0 = Some out
            ∧ NoDup (GetFinalizers (obj out)))
  ∧ NoDup (GetFinalizers (obj (Reconcile fm_ab (res ["x"; "b"; "y"; "a"]) 0)))
  ∧ NoDup (GetFinalizers (obj (ReconcileOne (W:=nat) "b" (res ["x"; "b"; "y"; "a"]) 0))).
Proof.
  split; [exact NoDup_xbya|].
  destruct (X29_operations_keep_list_free_of_duplicates
              fm_ab "b" (res ["x"; "b"; "y"; "a"]) 0)
    as ((out & Hout & Hnd) & Hrest); [exact NoDup_xbya| |].
  - intros n f Hf r w Hnd. by rewrite (fm_ab_frame n f Hf).
  - split; [|exact Hrest]. exists out. split; [done|]. apply Hnd. by right.
Defined.

Lemma C10_witness :
  ret <$> Finalize fm_ab (res ["x"; "b"; "y"; "a"]) 1 = Some None
  ∧ ∃ out,
      Finalize fm_ab (res ["x"; "b"; "y"; "a"]) 1 = Some out
      ∧ last (calls out)
        = Some (CallSetFinalizers
                  (filter (λ n, finalizers fm_ab !! n = None)
                     (GetFinalizers (res ["x"; "b"; "y"; "a"]))))
      ∧ GetFinalizers (obj out)
        = filter (λ n, finalizers fm_ab !! n = None)
            (GetFinalizers (res ["x"; "b"; "y"; "a"]))
      ∧ GetFinalizers (obj out) `sublist_of` GetFinalizers (res ["x"; "b"; "y"; "a"])
      ∧ ∀ name, name ∈ GetFinalizers (obj out)
                ↔ name ∈ GetFinalizers (res ["x"; "b"; "y"; "a"])
                  ∧ finalizers fm_ab !! name = None.
Proof.
  split; [by vm_compute|].
  apply (C10_Finalize_nil_writes_unregistered_names
           fm_ab (res ["x"; "b"; "y"; "a"]) 1).
  by vm_compute.
Defined.

End FinalizerRuns.

(** ** Facts about the helm controller *)
Module ControllerFacts.
Import Finalizer Controller FinalizerFacts.

(** *** The predicate on dependent resources *)

(** What [strip] leaves under each key. *)
Lemma strip_lookup (o : Unstructured) (k : string) :
  Object (strip o) !! k
  = if decide (k = "status") then None
    else if decide (k = "metadata") then
      match Object o !! "metadata" with
      | Some (VMap m) => Some (VMap (delete "resourceVersion" m))
      | other => other
      end
    else Object o !! k.
Proof.
  unfold strip, SetResourceVersion, delete_field, RemoveNestedField. simpl.
  rewrite lookup_delete_ne by done.
  destruct (Object o !! "metadata") as [v|] eqn:Hmeta.
  - assert (∀ k, Object o !! k = if decide (k = "metadata") then Some v
                                else Object o !! k) as Hk.
    { intros k'. case_decide; by subst. }
    destruct v; simpl;
      repeat case_decide; subst; try done;
      rewrite ?lookup_insert_eq, ?lookup_insert_ne, ?lookup_delete_eq,
        ?lookup_delete_ne by done; done.
  - repeat case_decide; subst; try done;
      rewrite ?lookup_delete_eq, ?lookup_delete_ne by done; done.
Qed.

Lemma UpdateFunc_false_iff (e : UpdateEvent) :
  UpdateFunc e = false ↔ strip (ObjectOld e) = strip (ObjectNew e).
Proof.
  unfold UpdateFunc. case_decide as Heq.
  - split; [intros _|done].
    destruct (strip (ObjectOld e)), (strip (ObjectNew e)). simpl in *. by subst.
  - split; [done|]. intros Hs. by rewrite Hs in Heq.
Qed.

Lemma delete_eq_iff (mo mn : gmap string value) (key : string) :
  delete key mo = delete key mn ↔ ∀ k, k ≠ key → mo !! k = mn !! k.
Proof.
  split.
  - intros Heq k Hk.
    rewrite <- (lookup_delete_ne mo key k), <- (lookup_delete_ne mn key k) by done.
    by rewrite Heq.
  - intros Hk. apply map_eq. intros k. destruct (decide (k = key)) as [->|Hne].
    + by rewrite !lookup_delete_eq.
    + rewrite !lookup_delete_ne by done. by apply Hk.
Qed.

(** C5: [UpdateFunc] returns false exactly when the two objects are equal
    once ["status"] is deleted and the resource version cleared on both; said
    by fields: exactly when they agree on every top-level field other than
    ["status"] and ["metadata"], and their metadata agree on every field
    other than ["resourceVersion"].  So a notification that differs only in
    status or resource version is filtered out and one that differs in any
    other field passes.  [CreateFunc] is always false and [DeleteFunc] always
    true. *)
Theorem C5_dependentPredicate_filters_status_and_resourceVersion :
  (∀ e, UpdateFunc e = false ↔ strip (ObjectOld e) = strip (ObjectNew e))
  ∧ (∀ e,
       UpdateFunc e = false
       ↔ (∀ k, k ≠ "status" → k ≠ "metadata" →
            Object (ObjectOld e) !! k = Object (ObjectNew e) !! k)
         ∧ match Object (ObjectOld e) !! "metadata",
                 Object (ObjectNew e) !! "metadata" with
           | Some (VMap mo), Some (VMap mn) =>
               ∀ k, k ≠ "resourceVersion" → mo !! k = mn !! k
           | old_meta, new_meta => old_meta = new_meta
           end)
  ∧ (∀ e, CreateFunc e = false)
  ∧ (∀ e, DeleteFunc e = true).
Proof.
  split; [exact UpdateFunc_false_iff|]. split; [|done].
  intros [old new]. rewrite UpdateFunc_false_iff. simpl. split.
  - intros Heq.
    assert (∀ k, Object (strip old) !! k = Object (strip new) !! k) as Hk
      by (intros k; by rewrite Heq).
    split.
    + intros k Hs Hm. specialize (Hk k). rewrite !strip_lookup in Hk.
      by repeat case_decide.
    + specialize (Hk "metadata"). rewrite !strip_lookup in Hk. simpl in Hk.
      destruct (Object old !! "metadata") as [[]|],
               (Object new !! "metadata") as [[]|]; try done.
      injection Hk as Hk. by apply delete_eq_iff.
  - intros [Hother Hmeta].
    destruct (strip old) as [so] eqn:Hso, (strip new) as [sn] eqn:Hsn.
    f_equal. apply map_eq. intros k.
    change so with (Object {| Object := so |}).
    change sn with (Object {| Object := sn |}).
    rewrite <- Hso, <- Hsn, !strip_lookup.
    case_decide; [done|]. case_decide; [|by apply Hother].
    destruct (Object old !! "metadata") as [[]|],
             (Object new !! "metadata") as [[]|]; try done.
    do 2 f_equal. by apply delete_eq_iff.
Qed.

(** *** Status conditions *)

Lemma GetCondition_SetCondition now c s :
  ∃ c', GetCondition (Type_ c) (SetCondition now c s) = Some c'
        ∧ Type_ c' = Type_ c ∧ Status c' = Status c
        ∧ Reason c' = Reason c ∧ Message c' = Message c.
Proof.
  unfold GetCondition, SetCondition. simpl.
  induction (Conditions s) as [|x rest IH]; simpl.
  - rewrite filter_cons_True by done. simpl. eauto 10.
  - case_decide as Hx.
    + rewrite filter_cons_True by done. simpl. eauto 10.
    + by rewrite filter_cons_False by done.
Qed.

Lemma GetCondition_SetCondition_ne t now c s :
  t ≠ Type_ c → GetCondition t (SetCondition now c s) = GetCondition t s.
Proof.
  intros Hne. unfold GetCondition, SetCondition. simpl.
  induction (Conditions s) as [|x rest IH]; simpl.
  - by rewrite filter_cons_False by (simpl; congruence).
  - case_decide as Hx.
    + rewrite !filter_cons_False by (simpl; congruence). done.
    + destruct (decide (Type_ x = t)).
      * by rewrite !filter_cons_True by done.
      * by rewrite !filter_cons_False by done.
Qed.

Lemma GetCondition_RemoveCondition t s :
  GetCondition t (RemoveCondition t s) = None.
Proof.
  unfold GetCondition, RemoveCondition. simpl.
  induction (Conditions s) as [|x rest IH]; [done|].
  destruct (decide (Type_ x = t)).
  - by rewrite (filter_cons_False (λ c, Type_ c ≠ t)) by tauto.
  - rewrite (filter_cons_True (λ c, Type_ c ≠ t)) by done.
    by rewrite filter_cons_False by done.
Qed.

(** *** The uninstall finalizer *)

Section UninstallFinalizerFacts.
Context {W : Type} `{Finalizable Unstructured}.
Variable UninstallRelease : Unstructured → W → option Release * option error * W.
Variable StatusFor : Unstructured → HelmAppStatus.
Variable updateResourceStatus :
  Unstructured → HelmAppStatus → W → option error * Unstructured * W.
Variable Now : W → Z.

Local Abbreviation uninstall :=
  (NewUninstallFinalizer UninstallRelease StatusFor updateResourceStatus Now).
Local Abbreviation fm :=
  (Add_FinalizerManager UninstallRelease StatusFor updateResourceStatus Now).

Lemma registered_Add name : registered fm name ↔ name = "uninstall-helm-release".
Proof.
  unfold registered, Add_FinalizerManager, RegisterFinalizer. simpl.
  rewrite lookup_insert_is_Some. rewrite lookup_empty.
  split; [intros [->|[_ [? ?]]]; done|intros ->; by left].
Qed.

(** C4: with the release not found, the uninstall finalizer returns what the
    status write returns, nil when that write succeeds, never the not-found
    error; with the release uninstalled, the status it writes and leaves on
    the object has [Deployed] false with reason [ReasonUninstallSuccessful]
    and no [ReleaseFailed]; on any other error it returns that error, with
    [ReleaseFailed] true, reason [ReasonUninstallError] and the error's
    message in the status.  [Add] registers it as "uninstall-helm-release",
    and [Finalize] calls it before its one write of the list without that
    name. *)
Theorem C4_uninstall_finalizer_outcomes (o : Unstructured) (w : W) :
  (∀ rel w1 ret o' w2,
     UninstallRelease o w = (rel, Some ReleaseErrNotFound, w1) →
     updateResourceStatus o
       (RemoveCondition ConditionReleaseFailed (StatusFor o)) w1 = (ret, o', w2) →
     uninstall o w
     = (ret,
        deferred_status (RemoveCondition ConditionReleaseFailed (StatusFor o)) o',
        w2))
  ∧ (∀ rel w1,
       UninstallRelease o w = (rel, None, w1) →
       ∃ status,
         uninstall o w
         = ((updateResourceStatus o status w1).1.1,
            deferred_status status (updateResourceStatus o status w1).1.2,
            (updateResourceStatus o status w1).2)
         ∧ Object (uninstall o w).1.2 !! "status" = Some (VStatus status)
         ∧ GetCondition ConditionReleaseFailed status = None
         ∧ ∃ c, GetCondition ConditionDeployed status = Some c
                ∧ Status c = StatusFalse
                ∧ Reason c = ReasonUninstallSuccessful)
  ∧ (∀ rel err w1,
       UninstallRelease o w = (rel, Some err, w1) →
       err ≠ ReleaseErrNotFound →
       ∃ status,
         uninstall o w
         = (Some err,
            deferred_status status (updateResourceStatus o status w1).1.2,
            (updateResourceStatus o status w1).2)
         ∧ Object (uninstall o w).1.2 !! "status" = Some (VStatus status)
         ∧ ∃ c, GetCondition ConditionReleaseFailed status = Some c
                ∧ Status c = StatusTrue
                ∧ Reason c = ReasonUninstallError
                ∧ Message c = Error err)
  ∧ finalizers fm !! "uninstall-helm-release" = Some uninstall
  ∧ (ret <$> Finalize fm o w = Some None →
     ∃ out,
       Finalize fm o w = Some out
       ∧ calls out
         = (CallFinalize <$>
              filter (λ n, n = "uninstall-helm-release") (GetFinalizers o))
             ++ [CallSetFinalizers
                   (filter (λ n, n ≠ "uninstall-helm-release") (GetFinalizers o))]).
Proof.
  split; [|split; [|split; [|split]]].
  - intros rel w1 ret o' w2 Hun Hup. unfold NewUninstallFinalizer.
    rewrite Hun. rewrite decide_False by (intros Hne; by apply Hne).
    by rewrite Hup.
  - intros rel w1 Hun. unfold NewUninstallFinalizer. rewrite Hun.
    set (status := SetCondition _ _ _).
    exists status. destruct (updateResourceStatus o status w1) as [[e o'] w2].
    simpl. split; [done|]. split; [by rewrite lookup_insert_eq|]. split.
    + unfold status. rewrite GetCondition_SetCondition_ne by done.
      apply GetCondition_RemoveCondition.
    + unfold status.
      destruct (GetCondition_SetCondition (Now w1)
                  {| Type_ := ConditionDeployed; Status := StatusFalse;
                     Reason := ReasonUninstallSuccessful; Message := "";
                     LastTransitionTime := 0 |}
                  (RemoveCondition ConditionReleaseFailed (StatusFor o)))
        as (c & Hc & _ & Hs & Hr & _).
      eauto.
  - intros rel err w1 Hun Hne. unfold NewUninstallFinalizer. rewrite Hun.
    rewrite decide_True by done.
    set (status := SetCondition _ _ _).
    exists status. destruct (updateResourceStatus o status w1) as [[e o'] w2].
    simpl. split; [done|]. split; [by rewrite lookup_insert_eq|].
    unfold status.
    destruct (GetCondition_SetCondition (Now w1)
                {| Type_ := ConditionReleaseFailed; Status := StatusTrue;
                   Reason := ReasonUninstallError; Message := Error err;
                   LastTransitionTime := 0 |} (StatusFor o))
      as (c & Hc & _ & Hs & Hr & Hm).
    eauto 10.
  - unfold Add_FinalizerManager, RegisterFinalizer. simpl.
    by rewrite lookup_insert_eq.
  - intros Hnil.
    destruct (Finalize_nil_calls fm o w Hnil) as (out & Hout & _ & Hcalls & _).
    exists out. split; [done|]. rewrite Hcalls. f_equal; [f_equal|do 2 f_equal].
    + apply list_filter_iff. intros n. apply registered_Add.
    + apply list_filter_iff. intros n. by rewrite registered_Add.
Qed.

End UninstallFinalizerFacts.

(** *** The release hook *)

Lemma GroupVersionKind_of_parts (g g' : GroupVersionKind) :
  GroupKind_of g = GroupKind_of g' → Version g = Version g' → g = g'.
Proof. destruct g, g'. unfold GroupKind_of. simpl. by intros [= -> ->] ->. Qed.

Section ReleaseHookFacts.
Context {W : Type}.
Variable NewDecoder : string → list decoded.
Variable GroupVersionKind_of : Unstructured → GroupVersionKind.
Variable RESTMapping : GroupKind → string → outcome RESTScopeName.
Variable Watch : GroupVersionKind → W → option error * W.
Variable owner : GroupVersionKind.

Local Abbreviation loop :=
  (releaseHook_loop (W:=W) GroupVersionKind_of RESTMapping Watch owner).
Local Abbreviation hook :=
  (releaseHook (W:=W) NewDecoder GroupVersionKind_of RESTMapping Watch owner).
Local Abbreviation kinds := (doc_kinds GroupVersionKind_of).

(** Splits the goal along the branches of one iteration of the loop. *)
Local Ltac hook_cases :=
  simpl;
  repeat match goal with
    | |- context [decide (?g ∈ ?ws)] => destruct (decide (g ∈ ws))
    | |- context [RESTMapping ?gk ?v] =>
        lazymatch goal with
        | H : RESTMapping gk v = _ |- _ => rewrite !H
        | _ => destruct (RESTMapping gk v) as [[]|?] eqn:?
        end
    | |- context [Watch ?g ?w] => destruct (Watch g w) as [[?|] ?] eqn:?
    end;
  simpl.

(** A kind in the map stays in it. *)
Lemma releaseHook_loop_mono dec :
  ∀ watches w, watches ⊆ hook_watches (loop dec watches w).
Proof.
  induction dec as [|[u|err] dec IH]; intros watches w; [done| |done].
  hook_cases; try done; try apply IH;
    (etrans; [|apply IH]); set_solver.
Qed.

Lemma hook_allowed_mono watches watches' ev :
  watches ⊆ watches' →
  hook_allowed RESTMapping owner watches' ev →
  hook_allowed RESTMapping owner watches ev.
Proof.
  intros Hsub. destruct ev as [gk v|gvk]; simpl.
  - intros [?|(g & Hg & ? & ?)]; [by left|]. right. exists g. set_solver.
  - intros [Hg ?]. set_solver.
Qed.

(** Every call of a pass is one the map it started from allows. *)
Lemma releaseHook_loop_allowed dec :
  ∀ watches w,
    Forall (hook_allowed RESTMapping owner watches)
      (hook_calls (loop dec watches w)).
Proof.
  induction dec as [|[u|err] dec IH]; intros watches w;
    [by apply Forall_nil| |by apply Forall_nil].
  set (gvk := GroupVersionKind_of u).
  assert (∀ w', Forall (hook_allowed RESTMapping owner watches)
                  (hook_calls (loop dec ({[gvk]} ∪ watches) w'))) as IH'.
  { intros w'. eapply Forall_impl; [apply IH|].
    intros ev. apply hook_allowed_mono. set_solver. }
  simpl. fold gvk. destruct (decide (gvk ∈ watches)) as [Hin|Hin]; [apply IH|].
  assert (hook_allowed RESTMapping owner watches
            (CallRESTMapping (GroupKind_of gvk) (Version gvk))) as Hdep
    by (right; exists gvk; done).
  assert (hook_allowed RESTMapping owner watches
            (CallRESTMapping (GroupKind_of owner) (Version owner))) as Hown
    by (by left).
  destruct (RESTMapping (GroupKind_of gvk) (Version gvk)) as [dep|?] eqn:Hd;
    [|simpl; repeat (apply Forall_cons; split; [done|]); by apply Forall_nil].
  destruct (RESTMapping (GroupKind_of owner) (Version owner)) as [own|?] eqn:Ho;
    [|simpl; repeat (apply Forall_cons; split; [done|]); by apply Forall_nil].
  destruct (negb (bool_decide (own = RESTScopeNameRoot))
            && bool_decide (dep = RESTScopeNameRoot)) eqn:Hscope.
  - simpl. repeat (apply Forall_cons; split; [done|]). apply IH'.
  - assert (hook_allowed RESTMapping owner watches (CallWatch gvk)) as Hw.
    { split; [done|]. intros [Ho' Hd']. rewrite Ho in Ho'. rewrite Hd in Hd'.
      injection Ho' as ->. injection Hd' as ->. done. }
    destruct (Watch gvk w) as [[e|] w'];
      simpl; repeat (apply Forall_cons; split; [done|]);
      [by apply Forall_nil|apply IH'].
Qed.

(** No [Watch] call for a kind already in the map. *)
Lemma releaseHook_loop_seen_no_Watch dec gvk watches w :
  gvk ∈ watches → CallWatch gvk ∉ hook_calls (loop dec watches w).
Proof.
  intros Hin Hev.
  pose proof (releaseHook_loop_allowed dec watches w) as Hall.
  rewrite Forall_forall in Hall. by destruct (Hall _ Hev).
Qed.

(** No lookup of a kind already in the map, unless it is the owner's. *)
Lemma releaseHook_loop_seen_no_RESTMapping dec gvk watches w :
  gvk ∈ watches → gvk ≠ owner →
  CallRESTMapping (GroupKind_of gvk) (Version gvk)
    ∉ hook_calls (loop dec watches w).
Proof.
  intros Hin Hne Hev.
  pose proof (releaseHook_loop_allowed dec watches w) as Hall.
  rewrite Forall_forall in Hall.
  destruct (Hall _ Hev) as [[Hgk Hv]|(g & Hg & Hgk & Hv)].
  - by apply Hne, GroupVersionKind_of_parts.
  - apply Hg. by rewrite <- (GroupVersionKind_of_parts gvk g).
Qed.

(** No [Watch] call for a cluster-scoped kind under a namespace-scoped
    owner. *)
Lemma releaseHook_loop_scope_no_Watch dec gvk watches w :
  RESTMapping (GroupKind_of gvk) (Version gvk) = Ok RESTScopeNameRoot →
  RESTMapping (GroupKind_of owner) (Version owner) = Ok RESTScopeNameNamespace →
  CallWatch gvk ∉ hook_calls (loop dec watches w).
Proof.
  intros Hdep Hown Hev.
  pose proof (releaseHook_loop_allowed dec watches w) as Hall.
  rewrite Forall_forall in Hall. destruct (Hall _ Hev) as [_ Hno]. by apply Hno.
Qed.

Lemma hook_log_nil (o : hook_result W) : hook_log [] o = o.
Proof. by destruct o. Qed.

Lemma hook_log_hook_log evs evs' (o : hook_result W) :
  hook_log evs (hook_log evs' o) = hook_log (evs ++ evs') o.
Proof. unfold hook_log. simpl. by rewrite app_assoc. Qed.

(** Each kind is watched at most once in a pass. *)
Lemma releaseHook_loop_Watch_once dec gvk :
  ∀ watches w,
    length (filter (λ ev, ev = CallWatch gvk) (hook_calls (loop dec watches w)))
    ≤ 1.
Proof.
  induction dec as [|[u|err] dec IH]; intros watches w;
    [simpl; lia| |simpl; lia].
  hook_cases; try apply IH;
    repeat (rewrite filter_cons_False by done);
    try (rewrite filter_nil; simpl; lia); try apply IH; try lia.
  all: rewrite filter_cons; case_decide as Hg;
    [|first [apply IH|rewrite filter_nil; simpl; lia]].
  all: injection Hg as <-.
  all: rewrite filter_eq_not_elem_of; [simpl; lia|].
  all: first [by intros ?%elem_of_nil
             |apply releaseHook_loop_seen_no_Watch; set_solver].
Qed.

(** A pass over [pre ++ rest] whose part over [pre] meets no error goes on
    with [rest] from where that part ends. *)
Lemma releaseHook_loop_app pre rest :
  ∀ watches w,
    hook_ret (loop pre watches w) = None →
    loop (pre ++ rest) watches w
    = hook_log (hook_calls (loop pre watches w))
        (loop rest (hook_watches (loop pre watches w))
           (hook_env (loop pre watches w))).
Proof.
  induction pre as [|[u|err] pre IH]; intros watches w Hret;
    [by rewrite hook_log_nil|simpl in *|done].
  revert Hret. hook_cases; intros Hret; try done;
    rewrite ?hook_log_hook_log; try (by apply IH);
    rewrite IH by done; by rewrite hook_log_hook_log.
Qed.

(** A pass that meets no error has read documents only and leaves the map
    with their kinds added. *)
Lemma releaseHook_loop_nil dec :
  ∀ watches w,
    hook_ret (loop dec watches w) = None →
    hook_watches (loop dec watches w) = watches ∪ list_to_set (kinds dec)
    ∧ Forall (λ d, ∃ u, d = Doc u) dec.
Proof.
  induction dec as [|[u|err] dec IH]; intros watches w Hret;
    [split; [|by apply Forall_nil]|simpl in *|done].
  { simpl. by rewrite (right_id_L ∅ (∪)). }
  revert Hret. hook_cases; intros Hret; try done;
    destruct (IH _ _ Hret) as [-> Hdocs];
    (split; [|apply Forall_cons; eauto]).
  all: apply set_eq; intros x;
    rewrite ?elem_of_union, ?elem_of_singleton; intuition (subst; tauto).
Qed.

(** Documents whose kinds are all in the map are passed over without a
    call. *)
Lemma releaseHook_loop_skip pre rest watches w :
  Forall (λ d, ∃ u, d = Doc u) pre →
  (∀ gvk, gvk ∈ kinds pre → gvk ∈ watches) →
  loop (pre ++ rest) watches w = loop rest watches w.
Proof.
  induction 1 as [|d pre [u ->] Hdocs IH]; intros Hseen; [done|].
  simpl. rewrite decide_True by (apply Hseen; simpl; by left).
  apply IH. intros gvk Hgvk. apply Hseen. simpl. by right.
Qed.

(** A cluster-scoped kind under a namespace-scoped owner is in the map once
    the loop has read a document of that kind. *)
Lemma releaseHook_loop_scope_seen u post watches w :
  RESTMapping (GroupKind_of (GroupVersionKind_of u))
    (Version (GroupVersionKind_of u)) = Ok RESTScopeNameRoot →
  RESTMapping (GroupKind_of owner) (Version owner) = Ok RESTScopeNameNamespace →
  GroupVersionKind_of u ∈ hook_watches (loop (Doc u :: post) watches w).
Proof.
  intros Hdep Hown. simpl.
  destruct (decide (GroupVersionKind_of u ∈ watches)) as [Hin|Hin].
  - by apply releaseHook_loop_mono.
  - rewrite Hdep, Hown. simpl. apply releaseHook_loop_mono.
    apply elem_of_union_l. by apply elem_of_singleton.
Qed.

(** C6: a kind that resolves as cluster-scoped, under an owner that resolves
    as namespace-scoped, is never passed to [Watch], whatever the manifest
    and the map; once a pass has read a document of that kind the kind is in
    the map, and a second pass over the same manifest makes no scope lookup
    and no [Watch] call for it. *)
Theorem C6_cluster_scoped_dependent_is_seen_but_never_watched
    release watches w gvk :
  let run := releaseHook NewDecoder GroupVersionKind_of RESTMapping Watch owner in
  let first := run release watches w in
  let second := run release (hook_watches first) (hook_env first) in
  RESTMapping (GroupKind_of gvk) (Version gvk) = Ok RESTScopeNameRoot →
  RESTMapping (GroupKind_of owner) (Version owner) = Ok RESTScopeNameNamespace →
  (CallWatch gvk ∉ hook_calls first)
  ∧ ∀ pre u post,
      NewDecoder (Manifest release) = pre ++ Doc u :: post →
      GroupVersionKind_of u = gvk →
      hook_ret (releaseHook_loop GroupVersionKind_of RESTMapping Watch owner
                  pre watches w) = None →
      gvk ∈ hook_watches first
      ∧ (CallRESTMapping (GroupKind_of gvk) (Version gvk) ∉ hook_calls second)
      ∧ (CallWatch gvk ∉ hook_calls second).
Proof.
  intros run first second Hdep Hown. subst run first second. split; [by apply releaseHook_loop_scope_no_Watch|].
  intros pre u post Hdec Hu Hpre.
  assert (gvk ∈ hook_watches (hook release watches w)) as Hseen.
  { unfold releaseHook. rewrite Hdec, releaseHook_loop_app by done. simpl.
    subst gvk. by apply releaseHook_loop_scope_seen. }
  split; [done|]. split.
  - apply releaseHook_loop_seen_no_RESTMapping; [done|].
    intros ->. rewrite Hown in Hdep. done.
  - by apply releaseHook_loop_seen_no_Watch.
Qed.

(** C7: a pass never removes a kind from the map, makes no [Watch] call for
    a kind already in it, and calls [Watch] at most once for any kind; so a
    second pass over the same manifest makes no [Watch] call for the kinds
    the first one left in the map, and after a first pass without error it
    makes no call at all. *)
Theorem C7_watch_registered_at_most_once_per_kind release watches w :
  let run := releaseHook NewDecoder GroupVersionKind_of RESTMapping Watch owner in
  let first := run release watches w in
  let second := run release (hook_watches first) (hook_env first) in
  watches ⊆ hook_watches first
  ∧ (∀ gvk, gvk ∈ watches → CallWatch gvk ∉ hook_calls first)
  ∧ (∀ gvk, length (filter (λ ev, ev = CallWatch gvk) (hook_calls first)) ≤ 1)
  ∧ (∀ gvk, gvk ∈ hook_watches first → CallWatch gvk ∉ hook_calls second)
  ∧ hook_watches first ⊆ hook_watches second
  ∧ (hook_ret first = None →
     second = HookResult W None (hook_watches first) (hook_env first) []).
Proof.
  intros run first second. subst run first second. unfold releaseHook.
  split; [apply releaseHook_loop_mono|].
  split; [intros gvk; apply releaseHook_loop_seen_no_Watch|].
  split; [intros gvk; apply releaseHook_loop_Watch_once|].
  split; [intros gvk; apply releaseHook_loop_seen_no_Watch|].
  split; [apply releaseHook_loop_mono|].
  intros Hret.
  destruct (releaseHook_loop_nil _ _ _ Hret) as [Hws Hdocs].
  pose proof (releaseHook_loop_skip (NewDecoder (Manifest release)) []
                (hook_watches (loop (NewDecoder (Manifest release)) watches w))
                (hook_env (loop (NewDecoder (Manifest release)) watches w))
                Hdocs) as Hskip.
  rewrite app_nil_r in Hskip. apply Hskip.
  intros gvk Hgvk. rewrite Hws.
  apply elem_of_union_r. by apply elem_of_list_to_set.
Qed.

(** C8: when the decoder fails after the documents [pre], all of them
    handled without error, the pass returns the decode error; the map holds
    what it held before and the kinds of [pre], nothing else; and a retry on
    the same manifest passes over [pre] without any call and returns the
    decode error again. *)
Theorem C8_decode_failure_aborts_and_keeps_seen_kinds
    release watches w pre err post :
  let run := releaseHook NewDecoder GroupVersionKind_of RESTMapping Watch owner in
  let first := run release watches w in
  let retry := run release (hook_watches first) (hook_env first) in
  NewDecoder (Manifest release) = pre ++ Bad err :: post →
  hook_ret (releaseHook_loop GroupVersionKind_of RESTMapping Watch owner
              pre watches w) = None →
  hook_ret first = Some err
  ∧ hook_watches first
    = watches ∪ list_to_set (doc_kinds GroupVersionKind_of pre)
  ∧ watches ⊆ hook_watches first
  ∧ retry = HookResult W (Some err) (hook_watches first) (hook_env first) [].
Proof.
  intros run first retry Hdec Hpre. subst run first retry. unfold releaseHook. rewrite Hdec.
  destruct (releaseHook_loop_nil _ _ _ Hpre) as [Hws Hdocs].
  rewrite releaseHook_loop_app by done. simpl.
  split; [done|]. split; [done|]. split.
  - rewrite Hws. apply union_subseteq_l.
  - rewrite releaseHook_loop_skip; [done|done|].
    intros gvk Hgvk. rewrite Hws.
    apply elem_of_union_r. by apply elem_of_list_to_set.
Qed.

End ReleaseHookFacts.

End ControllerFacts.

(** ** The helm controller run on stand-in collaborators *)
Module ControllerRuns.
Import Finalizer Controller Doubles ControllerFacts.

Local Abbreviation uninstall :=
  (NewUninstallFinalizer UninstallRelease_double StatusFor_double
     updateResourceStatus_double Now_double).
Local Abbreviation hook :=
  (releaseHook (W:=nat) NewDecoder_double GroupVersionKind_double
     RESTMapping_double Watch_double owner_double).
Local Abbreviation loop :=
  (releaseHook_loop (W:=nat) GroupVersionKind_double RESTMapping_double
     Watch_double owner_double).

(** With the release uninstalled and the status written, the finalizer
    returns nil and the object carries [Deployed] false. *)
Lemma C4_witness :
  UninstallRelease_double nginx_cr 0 = (Some {| Manifest := "" |}, None, 1)
  ∧ ∃ status,
      uninstall nginx_cr 0
      = ((updateResourceStatus_double nginx_cr status 1).1.1,
         deferred_status status (updateResourceStatus_double nginx_cr status 1).1.2,
         (updateResourceStatus_double nginx_cr status 1).2)
      ∧ Object (uninstall nginx_cr 0).1.2 !! "status" = Some (VStatus status)
      ∧ GetCondition ConditionReleaseFailed status = None
      ∧ ∃ c, GetCondition ConditionDeployed status = Some c
             ∧ Status c = StatusFalse
             ∧ Reason c = ReasonUninstallSuccessful.
Proof.
  split; [done|].
  apply (proj1 (proj2 (C4_uninstall_finalizer_outcomes
                         UninstallRelease_double StatusFor_double
                         updateResourceStatus_double Now_double nginx_cr 0))
           (Some {| Manifest := "" |}) 1).
  done.
Defined.

(** A change of status and resource version alone is filtered out; a change
    of the replica count passes. *)
Lemma C5_witness :
  UpdateFunc {| ObjectOld := object_of_kind "Deployment" "1" 2;
                ObjectNew := object_of_kind "Deployment" "2" 2 |} = false
  ∧ strip (object_of_kind "Deployment" "1" 2)
    = strip (object_of_kind "Deployment" "2" 2)
  ∧ UpdateFunc {| ObjectOld := object_of_kind "Deployment" "1" 2;
                  ObjectNew := object_of_kind "Deployment" "2" 3 |} = true.
Proof.
  split; [by vm_compute|]. split; [|by vm_compute].
  apply (proj1 (proj1 C5_dependentPredicate_filters_status_and_resourceVersion
                  {| ObjectOld := object_of_kind "Deployment" "1" 2;
                     ObjectNew := object_of_kind "Deployment" "2" 2 |})).
  by vm_compute.
Defined.

Lemma C6_witness :
  RESTMapping_double (GroupKind_of namespace_kind) (Version namespace_kind)
  = Ok RESTScopeNameRoot
  ∧ RESTMapping_double (GroupKind_of owner_double) (Version owner_double)
    = Ok RESTScopeNameNamespace
  ∧ (CallWatch namespace_kind ∉ hook_calls (hook three_kinds ∅ 0))
  ∧ namespace_kind ∈ hook_watches (hook three_kinds ∅ 0)
  ∧ (CallRESTMapping (GroupKind_of namespace_kind) (Version namespace_kind)
       ∉ hook_calls (hook three_kinds (hook_watches (hook three_kinds ∅ 0))
                       (hook_env (hook three_kinds ∅ 0))))
  ∧ (CallWatch namespace_kind
       ∉ hook_calls (hook three_kinds (hook_watches (hook three_kinds ∅ 0))
                       (hook_env (hook three_kinds ∅ 0)))).
Proof.
  split; [done|]. split; [done|].
  destruct (C6_cluster_scoped_dependent_is_seen_but_never_watched
              NewDecoder_double GroupVersionKind_double RESTMapping_double
              Watch_double owner_double three_kinds ∅ 0 namespace_kind)
    as [Hnever Hseen]; [done|done|].
  split; [done|].
  apply (Hseen [Doc (object_of_kind "Deployment" "1" 2)]
           (object_of_kind "Namespace" "1" 0)
           [Doc (object_of_kind "Service" "1" 0)]); by vm_compute.
Defined.

Lemma C7_witness :
  hook_ret (hook three_kinds ∅ 0) = None
  ∧ hook three_kinds (hook_watches (hook three_kinds ∅ 0))
      (hook_env (hook three_kinds ∅ 0))
    = HookResult nat None (hook_watches (hook three_kinds ∅ 0))
        (hook_env (hook three_kinds ∅ 0)) [].
Proof.
  split; [by vm_compute|].
  apply (C7_watch_registered_at_most_once_per_kind
           NewDecoder_double GroupVersionKind_double RESTMapping_double
           Watch_double owner_double three_kinds ∅ 0).
  by vm_compute.
Defined.

Lemma C8_witness :
  NewDecoder_double (Manifest broken)
  = [Doc (object_of_kind "Deployment" "1" 2)]
      ++ Bad yaml_error :: [Doc (object_of_kind "Service" "1" 0)]
  ∧ hook_ret (loop [Doc (object_of_kind "Deployment" "1" 2)] ∅ 0) = None
  ∧ hook_ret (hook broken ∅ 0) = Some yaml_error
  ∧ hook_watches (hook broken ∅ 0)
    = ∅ ∪ list_to_set
            (doc_kinds GroupVersionKind_double
               [Doc (object_of_kind "Deployment" "1" 2)])
  ∧ ∅ ⊆ hook_watches (hook broken ∅ 0)
  ∧ hook broken (hook_watches (hook broken ∅ 0)) (hook_env (hook broken ∅ 0))
    = HookResult nat (Some yaml_error) (hook_watches (hook broken ∅ 0))
        (hook_env (hook broken ∅ 0)) [].
Proof.
  split; [by vm_compute|]. split; [by vm_compute|].
  apply (C8_decode_failure_aborts_and_keeps_seen_kinds
           NewDecoder_double GroupVersionKind_double RESTMapping_double
           Watch_double owner_double broken ∅ 0
           [Doc (object_of_kind "Deployment" "1" 2)] yaml_error
           [Doc (object_of_kind "Service" "1" 0)]); by vm_compute.
Defined.

End ControllerRuns.

(** ** More on the finalizer manager: FinalizeOne, ReconcileOne, registration *)
Module ManagerFacts.
Import Finalizer FinalizerFacts.

Section Facts.
Context {R W : Type} `{Finalizable R} `{!FinalizableLaws R}.
Implicit Types (fm : Manager R W) (r : R) (w : W) (name : string).
Implicit Types (kept rest l : list string).

(** The loop of [FinalizeOne] drops the first entry equal to [name] and
    nothing else. *)
Lemma FinalizeOne_loop_first name rest :
  ∀ kept fuel,
    length rest ≤ fuel →
    ∃ l', FinalizeOne_loop name fuel (length kept) (kept ++ rest) = Some l'
          ∧ (((name ∉ rest) ∧ l' = kept ++ rest)
             ∨ ∃ pre post, rest = pre ++ name :: post ∧ (name ∉ pre)
                           ∧ l' = kept ++ pre ++ post).
Proof.
  induction rest as [|x rest IH]; intros kept fuel Hfuel.
  - exists (kept ++ []). split.
    + destruct fuel; simpl; by rewrite lookup_kept_rest.
    + left. split; [by intros ?%elem_of_nil|done].
  - destruct fuel as [|fuel]; [simpl in Hfuel; lia|]. simpl in Hfuel.
    simpl. rewrite lookup_kept_rest. simpl.
    destruct (decide (name = x)) as [->|Hne].
    + eexists. split; [done|]. right. exists [], rest.
      rewrite remove_at_kept. split; [done|]. split; [by intros ?%elem_of_nil|done].
    + destruct (IH (kept ++ [x]) fuel) as (l' & Hl' & Hcase); [lia|].
      rewrite length_app in Hl'. simpl in Hl'.
      replace (length kept + 1) with (S (length kept)) in Hl' by lia.
      rewrite <- app_assoc in Hl'. simpl in Hl'.
      exists l'. split; [done|].
      destruct Hcase as [[Hnot ->]|(pre & post & -> & Hpre & ->)].
      * left. split; [|by rewrite <- app_assoc].
        by intros [?|?]%elem_of_cons.
      * right. exists (x :: pre), post. split; [done|].
        split; [by intros [?|?]%elem_of_cons|]. by rewrite <- app_assoc.
Qed.

(** X1: when the action registered under [name] returns nil, [FinalizeOne]
    reads the list the action left, drops the first entry equal to [name]
    from it, keeping every other entry in order, and writes that list; when
    [name] is not on the list it writes the list back as it is. *)
Theorem X1_FinalizeOne_removes_first_occurrence fm name f r w r' w' :
  finalizers fm !! name = Some f →
  f r w = (None, r', w') →
  ∃ out,
    FinalizeOne fm name r w = Some out
    ∧ ret out = None
    ∧ env out = w'
    ∧ calls out
      = [CallFinalize name; CallSetFinalizers (GetFinalizers (obj out))]
    ∧ (((name ∉ GetFinalizers r') ∧ GetFinalizers (obj out) = GetFinalizers r')
       ∨ ∃ pre post,
           GetFinalizers r' = pre ++ name :: post
           ∧ (name ∉ pre)
           ∧ GetFinalizers (obj out) = pre ++ post).
Proof.
  intros Hf Hrun. unfold FinalizeOne. rewrite Hf, Hrun.
  destruct (FinalizeOne_loop_first name (GetFinalizers r') []
              (length (GetFinalizers r'))) as (l' & Hl' & Hcase); [lia|].
  simpl in Hl'. rewrite Hl'. simpl. eexists. split; [done|]. simpl.
  rewrite GetFinalizers_SetFinalizers. repeat (split; [done|]).
  destruct Hcase as [[? ->]|(pre & post & ? & ? & ->)]; [by left|].
  right. by exists pre, post.
Qed.

(** Every action a pass calls is that of a name on the list. *)
Lemma Finalize_rec_calls_listed fm rest name :
  ∀ kept stale r w,
    CallFinalize name ∈ calls (Finalize_rec fm kept rest stale r w) →
    name ∈ rest.
Proof.
  induction rest as [|x rest IH]; intros kept stale r w; simpl.
  - by intros [[=]|[]%elem_of_nil]%elem_of_cons.
  - destruct (finalizers fm !! x) as [f|].
    + destruct (f r w) as [[[err|] r'] w']; simpl.
      * intros [[= ->]|[]%elem_of_nil]%elem_of_cons. by left.
      * intros [[= ->]|Hin]%elem_of_cons; [by left|]. right. by eapply IH.
    + intros Hin. right. by eapply IH.
Qed.

(** X2: [Finalize] only runs the actions of names on the resource's list,
    while [FinalizeOne] runs the action registered under [name] first even
    when [name] is not on the list. *)
Theorem X2_FinalizeOne_runs_unlisted_name_Finalize_does_not
    fm name (f : R → W → option error * R * W) r w :
  finalizers fm !! name = Some f →
  name ∉ GetFinalizers r →
  (∃ out, Finalize fm r w = Some out ∧ CallFinalize name ∉ calls out)
  ∧ (∃ out, FinalizeOne fm name r w = Some out
            ∧ head (calls out) = Some (CallFinalize name)).
Proof.
  intros Hf Hname. split.
  - rewrite Finalize_is_rec. eexists. split; [done|].
    intros Hin. by apply Finalize_rec_calls_listed in Hin.
  - unfold FinalizeOne. rewrite Hf.
    destruct (f r w) as [[[err|] r'] w']; [by eexists|].
    destruct (FinalizeOne_loop_first name (GetFinalizers r') []
                (length (GetFinalizers r'))) as (l' & Hl' & _); [lia|].
    simpl in Hl'. rewrite Hl'. simpl. by eexists.
Qed.

(** X3: [FinalizeOne] on a name without a registration returns
    [ErrNotFound] and touches nothing; and whenever [FinalizeOne] returns an
    error, whichever it is, it has not called [SetFinalizers]. *)
Theorem X3_FinalizeOne_error_writes_nothing fm name r w :
  (finalizers fm !! name = None →
   FinalizeOne fm name r w = Some (Result (Some FinalizerErrNotFound) r w []))
  ∧ (∀ out e l,
       FinalizeOne fm name r w = Some out →
       ret out = Some e →
       CallSetFinalizers l ∉ calls out).
Proof.
  split.
  - intros Hf. unfold FinalizeOne, Finalizer in *. by rewrite Hf.
  - intros out e l. unfold FinalizeOne.
    destruct (finalizers fm !! name) as [f|].
    + destruct (f r w) as [[[err|] r'] w'].
      * intros [= <-] _. simpl.
        by intros [[=]|[]%elem_of_nil]%elem_of_cons.
      * destruct (FinalizeOne_loop name _ 0 _); simpl; [|done].
        by intros [= <-].
    + intros [= <-] _. simpl. by intros []%elem_of_nil.
Qed.

Lemma ReconcileOne_eq name r w :
  ReconcileOne name r w
  = if bool_decide (name ∈ GetFinalizers r)
    then Result (false, None) r w []
    else Result (true, None) (SetFinalizers (GetFinalizers r ++ [name]) r) w
           [CallSetFinalizers (GetFinalizers r ++ [name])].
Proof.
  unfold ReconcileOne.
  destruct (ReconcileOne_found name (GetFinalizers r)) eqn:Hfound.
  - rewrite bool_decide_eq_true_2; [done|].
    by apply ReconcileOne_found_elem_of.
  - rewrite bool_decide_eq_false_2; [done|].
    intros Hin%ReconcileOne_found_elem_of. congruence.
Qed.

(** X4: after [ReconcileOne] the name is on the list; the list is the old
    one, with the name appended at the end when it was missing; the call
    returns whether it was missing; and a second call returns false, makes no
    write and leaves the resource as it is. *)
Theorem X4_ReconcileOne_adds_once name r w :
  name ∈ GetFinalizers (obj (ReconcileOne name r w))
  ∧ ret (ReconcileOne name r w)
    = (bool_decide (name ∉ GetFinalizers r), None)
  ∧ GetFinalizers (obj (ReconcileOne name r w))
    = (if bool_decide (name ∈ GetFinalizers r)
       then GetFinalizers r else GetFinalizers r ++ [name])
  ∧ ReconcileOne name (obj (ReconcileOne name r w)) (env (ReconcileOne name r w))
    = Result (false, None) (obj (ReconcileOne name r w))
        (env (ReconcileOne name r w)) [].
Proof.
  rewrite (ReconcileOne_eq name (obj (ReconcileOne name r w))).
  rewrite (ReconcileOne_eq name r w).
  destruct (decide (name ∈ GetFinalizers r)) as [Hin|Hin].
  - rewrite (bool_decide_eq_true_2 _ Hin). simpl.
    rewrite (bool_decide_eq_true_2 _ Hin).
    rewrite bool_decide_eq_false_2 by tauto. done.
  - rewrite (bool_decide_eq_false_2 _ Hin). simpl.
    rewrite GetFinalizers_SetFinalizers.
    assert (name ∈ GetFinalizers r ++ [name]) as Hin'
      by (apply elem_of_app; right; by left).
    rewrite (bool_decide_eq_true_2 _ Hin').
    by rewrite (bool_decide_eq_true_2 _ Hin).
Qed.

Lemma snoc_split_unique name l pre post :
  name ∉ l → name ∉ pre → l ++ [name] = pre ++ name :: post →
  pre = l ∧ post = [].
Proof.
  revert pre. induction l as [|x l IH]; intros pre Hl Hpre Heq.
  - destruct pre as [|y pre]; simpl in Heq.
    + by injection Heq as <-.
    + injection Heq as <- Heq. exfalso. apply Hpre. by left.
  - apply not_elem_of_cons in Hl as [Hne Hl].
    destruct pre as [|y pre]; simpl in Heq.
    + injection Heq as -> _. done.
    + injection Heq as <- Heq. apply not_elem_of_cons in Hpre as [_ Hpre].
      destruct (IH pre Hl Hpre Heq) as [-> ->]. done.
Qed.

(** X5: adding a missing name with [ReconcileOne] and then running
    [FinalizeOne] for it, with an action that returns nil and leaves the list
    alone, gives back the list the resource had before. *)
Theorem X5_ReconcileOne_then_FinalizeOne_restores_list
    fm name (f : R → W → option error * R * W) r w r' w' :
  name ∉ GetFinalizers r →
  finalizers fm !! name = Some f →
  f (obj (ReconcileOne name r w)) w = (None, r', w') →
  GetFinalizers r' = GetFinalizers (obj (ReconcileOne name r w)) →
  ∃ out,
    FinalizeOne fm name (obj (ReconcileOne name r w)) w = Some out
    ∧ ret out = None
    ∧ GetFinalizers (obj out) = GetFinalizers r.
Proof.
  intros Hname Hf Hrun Hsame.
  rewrite ReconcileOne_eq in Hrun, Hsame |- *.
  rewrite (bool_decide_eq_false_2 _ Hname) in Hrun, Hsame |- *.
  simpl in *. rewrite GetFinalizers_SetFinalizers in Hsame.
  unfold FinalizeOne. rewrite Hf, Hrun.
  destruct (FinalizeOne_loop_first name (GetFinalizers r') []
              (length (GetFinalizers r'))) as (l' & Hl' & Hcase); [lia|].
  simpl in Hl'. rewrite Hl'. simpl. eexists. split; [done|]. simpl.
  split; [done|]. rewrite GetFinalizers_SetFinalizers.
  destruct Hcase as [[Hnot _]|(pre & post & Heq & Hpre & ->)].
  - exfalso. apply Hnot. rewrite Hsame. apply elem_of_app. right. by left.
  - rewrite Hsame in Heq.
    destruct (snoc_split_unique name _ pre post Hname Hpre Heq) as [-> ->].
    by rewrite app_nil_r.
Qed.

(** X6: [Reconcile] returns true exactly when some registered name is
    missing from the resource's list, never returns an error, and makes no
    call: resource and world are as they were. *)
Theorem X6_Reconcile_reports_missing_names_and_changes_nothing fm r w :
  obj (Reconcile fm r w) = r
  ∧ env (Reconcile fm r w) = w
  ∧ calls (Reconcile fm r w) = []
  ∧ (ret (Reconcile fm r w)).2 = None
  ∧ ((ret (Reconcile fm r w)).1 = true
     ↔ ∃ name, is_Some (finalizers fm !! name) ∧ name ∉ GetFinalizers r).
Proof.
  destruct (Reconcile_obj fm r w) as [Hobj Hcalls].
  destruct (Reconcile_ret fm r w) as [Herr Hadded].
  repeat (split; [done|]). split; [|done].
  unfold Reconcile. by destruct (Reconcile_locals fm r).
Qed.

(** A pass over names none of which is registered runs nothing and writes
    them all. *)
Lemma Finalize_rec_unregistered fm rest :
  ∀ kept stale r w,
    (∀ name, name ∈ rest → finalizers fm !! name = None) →
    Finalize_rec fm kept rest stale r w
    = Result None (SetFinalizers (kept ++ rest) r) w
        [CallSetFinalizers (kept ++ rest)].
Proof.
  induction rest as [|x rest IH]; intros kept stale r w Hnone; simpl.
  - by rewrite app_nil_r.
  - destruct (finalizers fm !! x) as [f|] eqn:Hx.
    + assert (Some f = None) as [=].
      rewrite <- Hx. apply Hnone. by left.
    + rewrite IH by (intros name Hin; apply Hnone; by right).
      by rewrite <- app_assoc.
Qed.

(** X7: when no name on the resource's list has a registered action, as on
    an empty list or with a new manager, [Finalize] runs no action, leaves the
    world as it is, returns nil, and writes the list back unchanged. *)
Theorem X7_Finalize_without_registered_names_only_rewrites_list fm r w :
  (∀ name, name ∈ GetFinalizers r → finalizers fm !! name = None) →
  Finalize fm r w
  = Some (Result None (SetFinalizers (GetFinalizers r) r) w
            [CallSetFinalizers (GetFinalizers r)]).
Proof.
  intros Hnone. rewrite Finalize_is_rec.
  by rewrite Finalize_rec_unregistered.
Qed.

(** X8: after a [Finalize] that returned nil, another [Finalize] on the
    resource it left, in any world, runs no action and leaves the same
    list. *)
Theorem X8_Finalize_after_nil_Finalize_runs_nothing fm r w :
  ret <$> Finalize fm r w = Some None →
  ∃ out,
    Finalize fm r w = Some out
    ∧ ∀ w',
        ∃ out',
          Finalize fm (obj out) w' = Some out'
          ∧ ret out' = None
          ∧ env out' = w'
          ∧ calls out' = [CallSetFinalizers (GetFinalizers (obj out))]
          ∧ GetFinalizers (obj out') = GetFinalizers (obj out).
Proof.
  intros Hnil.
  destruct (Finalize_nil fm r w Hnil) as (out & Hout & _ & _ & Hobj).
  exists out. split; [done|]. intros w'.
  rewrite Finalize_is_rec, Finalize_rec_unregistered.
  - eexists. split; [done|]. simpl.
    by rewrite GetFinalizers_SetFinalizers.
  - intros name. rewrite Hobj. intros [Hun _]%list_elem_of_filter.
    by apply eq_None_not_Some.
Qed.

Lemma filter_eq_fmap_CallFinalize name l :
  length (filter (λ ev, ev = CallFinalize name) (CallFinalize <$> l))
  = length (filter (λ n, n = name) l).
Proof.
  induction l as [|x l IH]; [done|]. rewrite fmap_cons.
  destruct (decide (x = name)) as [->|Hne].
  - rewrite !filter_cons_True by done. simpl. by rewrite IH.
  - rewrite !filter_cons_False by congruence. done.
Qed.

Lemma filter_eq_filter_registered fm name l :
  filter (λ n, n = name) (filter (registered fm) l)
  = if decide (registered fm name) then filter (λ n, n = name) l else [].
Proof.
  induction l as [|x l IH]; [by case_decide|].
  destruct (decide (registered fm x)) as [Hx|Hx].
  - rewrite (filter_cons_True (registered fm)) by done.
    destruct (decide (x = name)) as [->|Hne].
    + rewrite !filter_cons_True by done. rewrite IH.
      by rewrite !decide_True by done.
    + rewrite !filter_cons_False by done. done.
  - rewrite (filter_cons_False (registered fm)) by done. rewrite IH.
    case_decide as Hn; [|done].
    rewrite filter_cons_False; [done|]. by intros ->.
Qed.

(** X9: in a [Finalize] that returns nil, the action of a registered name
    runs once for every occurrence of the name on the resource's list, and
    the action of a name that is not on the list does not run. *)
Theorem X9_Finalize_runs_action_once_per_occurrence fm name r w :
  ret <$> Finalize fm r w = Some None →
  ∃ out,
    Finalize fm r w = Some out
    ∧ length (filter (λ ev, ev = CallFinalize name) (calls out))
      = if decide (is_Some (finalizers fm !! name))
        then length (filter (λ n, n = name) (GetFinalizers r))
        else 0.
Proof.
  intros Hnil.
  destruct (Finalize_nil_calls fm r w Hnil) as (out & Hout & _ & Hcalls & _).
  exists out. split; [done|]. rewrite Hcalls.
  rewrite filter_app, length_app.
  rewrite (filter_cons_False _ (CallSetFinalizers _)) by done.
  rewrite filter_nil. simpl. rewrite Nat.add_0_r.
  rewrite filter_eq_fmap_CallFinalize, filter_eq_filter_registered.
  unfold registered. by case_decide.
Qed.

(** In a sequence of registrations on any manager, the last one under a name
    is in force; a name not in the sequence keeps what the manager had. *)
Lemma register_fold_last (regs : list (string * Finalizer R W)) name :
  ∀ fm,
    finalizers (foldl (λ fm reg, RegisterFinalizer reg.1 reg.2 fm) fm regs) !! name
    = match last (filter (λ reg, reg.1 = name) regs) with
      | Some reg => Some reg.2
      | None => finalizers fm !! name
      end.
Proof.
  induction regs as [|[n g] regs IH]; intros fm; [done|].
  simpl. rewrite IH. simpl.
  destruct (decide (n = name)) as [->|Hne].
  - rewrite (filter_cons_True (λ reg, reg.1 = name)) by done.
    destruct (filter (λ reg, reg.1 = name) regs) as [|y l] eqn:Hfil.
    + simpl. apply lookup_insert_eq.
    + change (last ((name, g) :: y :: l)) with (last (y :: l)).
      destruct (last (y :: l)) eqn:Hlast; [done|].
      by apply last_None in Hlast.
  - rewrite (filter_cons_False (λ reg, reg.1 = name)) by done.
    destruct (last (filter (λ reg, reg.1 = name) regs)); [done|].
    by apply lookup_insert_ne.
Qed.

(** X10: after any sequence of [RegisterFinalizer] calls on a new manager,
    the action in force for a name is the one of the last call made under
    that name, and a name never registered has none. *)
Theorem X10_RegisterFinalizer_last_registration_wins
    (regs : list (string * Finalizer R W)) name :
  finalizers (register_all regs) !! name
  = (λ reg, reg.2) <$> last (filter (λ reg, reg.1 = name) regs).
Proof.
  unfold register_all. rewrite register_fold_last.
  destruct (last (filter (λ reg, reg.1 = name) regs)); [done|].
  apply lookup_empty.
Qed.

End Facts.
End ManagerFacts.

(** ** More on the helm controller: the predicate, the uninstall finalizer
    under [Finalize], and the release hook *)
Module ControllerMoreFacts.
Import Finalizer Controller FinalizerFacts ControllerFacts.

(** X11: [UpdateFunc] compares its two objects as an equivalence: an update
    whose old and new objects are the same is filtered out, swapping old and
    new does not change the answer, and if the updates from [a] to [b] and
    from [b] to [c] are filtered out so is the update from [a] to [c]. *)
Theorem X11_UpdateFunc_filters_by_an_equivalence :
  (∀ o, UpdateFunc {| ObjectOld := o; ObjectNew := o |} = false)
  ∧ (∀ a b, UpdateFunc {| ObjectOld := a; ObjectNew := b |}
            = UpdateFunc {| ObjectOld := b; ObjectNew := a |})
  ∧ (∀ a b c,
       UpdateFunc {| ObjectOld := a; ObjectNew := b |} = false →
       UpdateFunc {| ObjectOld := b; ObjectNew := c |} = false →
       UpdateFunc {| ObjectOld := a; ObjectNew := c |} = false).
Proof.
  split; [|split].
  - intros o. by apply UpdateFunc_false_iff.
  - intros a b.
    destruct (UpdateFunc {| ObjectOld := a; ObjectNew := b |}) eqn:Hab,
             (UpdateFunc {| ObjectOld := b; ObjectNew := a |}) eqn:Hba;
      try done.
    + apply UpdateFunc_false_iff in Hba. simpl in Hba.
      symmetry in Hba. apply (UpdateFunc_false_iff (Build_UpdateEvent a b)) in Hba.
      congruence.
    + apply UpdateFunc_false_iff in Hab. simpl in Hab.
      symmetry in Hab. apply (UpdateFunc_false_iff (Build_UpdateEvent b a)) in Hab.
      congruence.
  - intros a b c Hab%UpdateFunc_false_iff Hbc%UpdateFunc_false_iff.
    apply UpdateFunc_false_iff. simpl in *. congruence.
Qed.

Lemma strip_eq_lookup (a b : Unstructured) :
  (∀ k, Object (strip a) !! k = Object (strip b) !! k) → strip a = strip b.
Proof.
  intros Hk. destruct (strip a) as [sa] eqn:Ha, (strip b) as [sb] eqn:Hb.
  f_equal. apply map_eq. intros k. apply (Hk k).
Qed.

(** X12: writing or deleting ["status"], or writing the ["resourceVersion"]
    entry of a metadata map, gives an update that is filtered out; writing a
    new value under any other top-level field, or under any other entry of
    the metadata map, gives an update that passes. *)
Theorem X12_UpdateFunc_on_single_field_writes :
  (∀ o st, UpdateFunc {| ObjectOld := o;
                         ObjectNew := set_field "status" st o |} = false)
  ∧ (∀ o, UpdateFunc {| ObjectOld := o;
                        ObjectNew := delete_field "status" o |} = false)
  ∧ (∀ o m v,
       Object o !! "metadata" = Some (VMap m) →
       UpdateFunc {| ObjectOld := o;
                     ObjectNew := set_field "metadata"
                                    (VMap (<["resourceVersion" := v]> m)) o |}
       = false)
  ∧ (∀ o k v,
       k ≠ "status" → k ≠ "metadata" → Object o !! k ≠ Some v →
       UpdateFunc {| ObjectOld := o; ObjectNew := set_field k v o |} = true)
  ∧ (∀ o m k v,
       Object o !! "metadata" = Some (VMap m) →
       k ≠ "resourceVersion" → m !! k ≠ Some v →
       UpdateFunc {| ObjectOld := o;
                     ObjectNew := set_field "metadata" (VMap (<[k := v]> m)) o |}
       = true).
Proof.
  split; [|split; [|split; [|split]]].
  - intros o st. apply UpdateFunc_false_iff. simpl.
    apply strip_eq_lookup. intros k. rewrite !strip_lookup. simpl.
    repeat case_decide; subst; try done.
    + by rewrite lookup_insert_ne.
    + by rewrite lookup_insert_ne.
  - intros o. apply UpdateFunc_false_iff. simpl.
    apply strip_eq_lookup. intros k. rewrite !strip_lookup. simpl.
    repeat case_decide; subst; try done.
    + by rewrite lookup_delete_ne.
    + by rewrite lookup_delete_ne.
  - intros o m v Hm. apply UpdateFunc_false_iff. simpl.
    apply strip_eq_lookup. intros k. rewrite !strip_lookup. simpl.
    repeat case_decide; subst; try done.
    + rewrite Hm, lookup_insert_eq. by rewrite delete_insert_eq.
    + by rewrite lookup_insert_ne.
  - intros o k v Hs Hm Hv.
    destruct (UpdateFunc _) eqn:Hu; [done|].
    apply UpdateFunc_false_iff in Hu. simpl in Hu.
    assert (Object (strip o) !! k = Object (strip (set_field k v o)) !! k) as Hk
      by by rewrite Hu.
    rewrite !strip_lookup in Hk. simpl in Hk.
    rewrite !decide_False in Hk by done.
    rewrite lookup_insert_eq in Hk. done.
  - intros o m k v Hmeta Hk Hv.
    destruct (UpdateFunc _) eqn:Hu; [done|].
    apply UpdateFunc_false_iff in Hu. simpl in Hu.
    assert (Object (strip o) !! "metadata"
            = Object (strip (set_field "metadata" (VMap (<[k := v]> m)) o))
                !! "metadata") as Heq by by rewrite Hu.
    rewrite !strip_lookup in Heq. simpl in Heq.
    rewrite Hmeta, lookup_insert_eq in Heq. injection Heq as Heq.
    assert (delete "resourceVersion" m !! k
            = delete "resourceVersion" (<[k := v]> m) !! k) as Hkk
      by by rewrite Heq.
    rewrite !lookup_delete_ne, lookup_insert_eq in Hkk by done. done.
Qed.

(** *** The uninstall finalizer under [Finalize] *)

Section UninstallUnderFinalize.
Context {W : Type} `{Finalizable Unstructured}.
Variable UninstallRelease : Unstructured → W → option Release * option error * W.
Variable StatusFor : Unstructured → HelmAppStatus.
Variable updateResourceStatus :
  Unstructured → HelmAppStatus → W → option error * Unstructured * W.
Variable Now : W → Z.

Local Abbreviation uninstall :=
  (NewUninstallFinalizer UninstallRelease StatusFor updateResourceStatus Now).
Local Abbreviation fm :=
  (Add_FinalizerManager UninstallRelease StatusFor updateResourceStatus Now).

Lemma Add_lookup name :
  finalizers fm !! name
  = if decide (name = "uninstall-helm-release") then Some uninstall else None.
Proof.
  unfold Add_FinalizerManager, RegisterFinalizer. simpl. case_decide as Hn.
  - subst. apply lookup_insert_eq.
  - rewrite lookup_insert_ne by done. apply lookup_empty.
Qed.

(** With the manager of [Add], a pass over names among which the uninstall
    name occurs stops at its first occurrence when the action fails there. *)
Lemma Finalize_rec_Add_error rest :
  ∀ kept stale o w e o' w',
    "uninstall-helm-release" ∈ rest →
    uninstall o w = (Some e, o', w') →
    Finalize_rec fm kept rest stale o w
    = Result (Some e) o' w' [CallFinalize "uninstall-helm-release"].
Proof.
  induction rest as [|x rest IH]; intros kept stale o w e o' w' Hin Hrun.
  - by apply elem_of_nil in Hin.
  - simpl. rewrite Add_lookup. case_decide as Hx.
    + subst. by rewrite Hrun.
    + apply IH; [|done]. by apply elem_of_cons in Hin as [?|?].
Qed.

(** X13: on a resource that carries the uninstall finalizer, [Finalize]
    with the manager of [Add] returns the error of the status write, and
    makes no [SetFinalizers] call, when the release was uninstalled or was
    not found but that write fails: the finalizer stays although the release
    is gone.  When the uninstall fails with another error it returns that
    error, again without a write. *)
Theorem X13_Finalize_keeps_uninstall_finalizer_on_any_error o w :
  "uninstall-helm-release" ∈ GetFinalizers o →
  (∀ rel w1 e o' w2,
     UninstallRelease o w = (rel, None, w1) →
     updateResourceStatus o
       (SetCondition (Now w1)
          {| Type_ := ConditionDeployed; Status := StatusFalse;
             Reason := ReasonUninstallSuccessful; Message := "";
             LastTransitionTime := 0 |}
          (RemoveCondition ConditionReleaseFailed (StatusFor o))) w1
     = (Some e, o', w2) →
     ∃ out,
       Finalize fm o w = Some out
       ∧ ret out = Some e
       ∧ env out = w2
       ∧ calls out = [CallFinalize "uninstall-helm-release"])
  ∧ (∀ rel w1 e o' w2,
       UninstallRelease o w = (rel, Some ReleaseErrNotFound, w1) →
       updateResourceStatus o
         (RemoveCondition ConditionReleaseFailed (StatusFor o)) w1
       = (Some e, o', w2) →
       ∃ out,
         Finalize fm o w = Some out
         ∧ ret out = Some e
         ∧ env out = w2
         ∧ calls out = [CallFinalize "uninstall-helm-release"])
  ∧ (∀ rel e w1,
       UninstallRelease o w = (rel, Some e, w1) →
       e ≠ ReleaseErrNotFound →
       ∃ out,
         Finalize fm o w = Some out
         ∧ ret out = Some e
         ∧ calls out = [CallFinalize "uninstall-helm-release"]).
Proof.
  intros Hin. split; [|split].
  - intros rel w1 e o' w2 Hun Hup.
    rewrite Finalize_is_rec. eexists. split; [done|].
    erewrite Finalize_rec_Add_error; [done|done|].
    unfold NewUninstallFinalizer. rewrite Hun. by rewrite Hup.
  - intros rel w1 e o' w2 Hun Hup.
    rewrite Finalize_is_rec. eexists. split; [done|].
    erewrite Finalize_rec_Add_error; [done|done|].
    unfold NewUninstallFinalizer. rewrite Hun.
    rewrite decide_False by (intros Hne; by apply Hne). by rewrite Hup.
  - intros rel e w1 Hun Hne.
    rewrite Finalize_is_rec. eexists. split; [done|].
    assert (∃ o' w', uninstall o w = (Some e, o', w')) as (o' & w' & Hrun).
    { unfold NewUninstallFinalizer. rewrite Hun.
      rewrite decide_True by done.
      destruct (updateResourceStatus _ _ _) as [[? ?] ?]. eauto. }
    by rewrite (Finalize_rec_Add_error _ [] [] o w e o' w' Hin Hrun).
Qed.

End UninstallUnderFinalize.

(** *** The release hook *)

Section ReleaseHookMoreFacts.
Context {W : Type}.
Variable NewDecoder : string → list decoded.
Variable GroupVersionKind_of : Unstructured → GroupVersionKind.
Variable RESTMapping : GroupKind → string → outcome RESTScopeName.
Variable Watch : GroupVersionKind → W → option error * W.
Variable owner : GroupVersionKind.

Local Abbreviation loop :=
  (releaseHook_loop (W:=W) GroupVersionKind_of RESTMapping Watch owner).
Local Abbreviation kinds := (doc_kinds GroupVersionKind_of).

(** Splits the goal along the branches of one iteration of the loop. *)
Local Ltac hook_cases :=
  simpl;
  repeat match goal with
    | |- context [decide (?g ∈ ?ws)] => destruct (decide (g ∈ ws))
    | |- context [RESTMapping ?gk ?v] =>
        lazymatch goal with
        | H : RESTMapping gk v = _ |- _ => rewrite !H
        | _ => destruct (RESTMapping gk v) as [[]|?] eqn:?
        end
    | |- context [Watch ?g ?w] => destruct (Watch g w) as [[?|] ?] eqn:?
    end;
  simpl.

(** The map after a pass holds nothing but what it held and kinds of the
    manifest. *)
Lemma releaseHook_loop_bounded dec :
  ∀ watches w,
    hook_watches (loop dec watches w) ⊆ watches ∪ list_to_set (kinds dec).
Proof.
  induction dec as [|[u|err] dec IH]; intros watches w;
    [apply union_subseteq_l| |apply union_subseteq_l].
  assert (∀ ws w',
            ws ⊆ {[GroupVersionKind_of u]} ∪ watches →
            hook_watches (loop dec ws w')
              ⊆ watches ∪ list_to_set (kinds (Doc u :: dec))) as Hstep.
  { intros ws w' Hws. etrans; [apply IH|]. simpl.
    intros x. rewrite !elem_of_union, elem_of_singleton.
    intros [Hx|Hx]; [|tauto].
    apply Hws in Hx. rewrite elem_of_union, elem_of_singleton in Hx. tauto. }
  hook_cases; try (apply Hstep; first [done|apply union_subseteq_r]);
    apply union_subseteq_l.
Qed.

(** X14: whatever a pass of the release hook returns, the map it leaves
    holds the kinds it held before and kinds of documents of the manifest,
    and nothing else. *)
Theorem X14_releaseHook_marks_only_kinds_of_the_manifest release watches w :
  watches
    ⊆ hook_watches
        (releaseHook NewDecoder GroupVersionKind_of RESTMapping Watch owner
           release watches w)
  ∧ hook_watches
      (releaseHook NewDecoder GroupVersionKind_of RESTMapping Watch owner
         release watches w)
      ⊆ watches
        ∪ list_to_set (doc_kinds GroupVersionKind_of
                         (NewDecoder (Manifest release))).
Proof.
  unfold releaseHook. split.
  - apply releaseHook_loop_mono.
  - apply releaseHook_loop_bounded.
Qed.

(** Every [Watch] call of a pass is for a kind of the manifest. *)
Lemma releaseHook_loop_Watch_listed dec gvk :
  ∀ watches w,
    CallWatch gvk ∈ hook_calls (loop dec watches w) → gvk ∈ kinds dec.
Proof.
  induction dec as [|[u|err] dec IH]; intros watches w;
    [by intros ?%elem_of_nil| |by intros ?%elem_of_nil].
  assert (∀ ws w', CallWatch gvk ∈ hook_calls (loop dec ws w') →
                   gvk ∈ kinds (Doc u :: dec)) as Hrest.
  { intros ws w' Hin. simpl. right. by eapply IH. }
  hook_cases; try apply Hrest;
    rewrite ?elem_of_cons, ?elem_of_nil;
    intuition (try discriminate; eauto);
    match goal with
    | Heq : CallWatch _ = CallWatch _ |- _ => injection Heq as ->; by left
    end.
Qed.

(** In a pass without error, every kind of the manifest that is not in the
    map and is not a cluster-scoped dependent of a namespace-scoped owner is
    passed to [Watch]. *)
Lemma releaseHook_loop_Watch_new dec gvk :
  ∀ watches w,
    hook_ret (loop dec watches w) = None →
    gvk ∈ kinds dec →
    gvk ∉ watches →
    ¬ (RESTMapping (GroupKind_of owner) (Version owner)
         = Ok RESTScopeNameNamespace
       ∧ RESTMapping (GroupKind_of gvk) (Version gvk) = Ok RESTScopeNameRoot) →
    CallWatch gvk ∈ hook_calls (loop dec watches w).
Proof.
  induction dec as [|[u|err] dec IH]; intros watches w Hret Hin Hnew Hscope;
    [by apply elem_of_nil in Hin| |done].
  simpl in Hin. apply elem_of_cons in Hin.
  destruct (decide (gvk = GroupVersionKind_of u)) as [->|Hne].
  - clear Hin IH. revert Hret. simpl.
    rewrite decide_False by done.
    destruct (RESTMapping (GroupKind_of (GroupVersionKind_of u)) _)
      as [dep|?] eqn:Hd; [|done].
    destruct (RESTMapping (GroupKind_of owner) _) as [own|?] eqn:Ho; [|done].
    destruct own, dep; simpl;
      try (exfalso; apply Hscope; by split);
      destruct (Watch _ w) as [[?|] ?]; simpl; try done;
      intros _; do 2 right; by left.
  - destruct Hin as [?|Hin]; [done|].
    assert (∀ ws w', hook_ret (loop dec ws w') = None →
                     ws ⊆ {[GroupVersionKind_of u]} ∪ watches →
                     CallWatch gvk ∈ hook_calls (loop dec ws w')) as Hrest.
    { intros ws w' Hret' Hws. apply IH; try done.
      intros Hgvk%Hws. apply elem_of_union in Hgvk as [Hgvk%elem_of_singleton|?];
        done. }
    revert Hret. hook_cases; intros Hret; try done;
      rewrite ?elem_of_cons;
      first [apply Hrest; [done|apply union_subseteq_r]
            |do 2 right; apply Hrest; [done|done]
            |do 3 right; apply Hrest; [done|done]].
Qed.

(** X15: in a pass of the release hook that returns nil, the kinds passed to
    [Watch] are exactly the kinds of the manifest that were not in the map
    and are not cluster-scoped under a namespace-scoped owner. *)
Theorem X15_releaseHook_watches_exactly_the_new_watchable_kinds
    release watches w gvk :
  hook_ret (releaseHook NewDecoder GroupVersionKind_of RESTMapping Watch owner
              release watches w) = None →
  CallWatch gvk
    ∈ hook_calls (releaseHook NewDecoder GroupVersionKind_of RESTMapping Watch
                    owner release watches w)
  ↔ gvk ∈ doc_kinds GroupVersionKind_of (NewDecoder (Manifest release))
    ∧ (gvk ∉ watches)
    ∧ ¬ (RESTMapping (GroupKind_of owner) (Version owner)
           = Ok RESTScopeNameNamespace
         ∧ RESTMapping (GroupKind_of gvk) (Version gvk) = Ok RESTScopeNameRoot).
Proof.
  unfold releaseHook. intros Hret. split.
  - intros Hcall. split; [by eapply releaseHook_loop_Watch_listed|].
    pose proof (releaseHook_loop_allowed GroupVersionKind_of RESTMapping Watch
                  owner (NewDecoder (Manifest release)) watches w) as Hall.
    rewrite Forall_forall in Hall. apply (Hall _ Hcall).
  - intros (Hin & Hnew & Hscope). by apply releaseHook_loop_Watch_new.
Qed.

(** A kind whose scope lookup fails never enters the map. *)
Lemma releaseHook_loop_lookup_fails dec gvk err :
  RESTMapping (GroupKind_of gvk) (Version gvk) = Fail err →
  ∀ watches w, gvk ∉ watches → gvk ∉ hook_watches (loop dec watches w).
Proof.
  intros Hfail.
  induction dec as [|[u|e] dec IH]; intros watches w Hnew; [done| |done].
  simpl. destruct (decide (GroupVersionKind_of u ∈ watches)); [by apply IH|].
  destruct (decide (GroupVersionKind_of u = gvk)) as [Heq|Hne].
  - rewrite Heq, Hfail. done.
  - assert (gvk ∉ {[GroupVersionKind_of u]} ∪ watches) as Hnew'.
    { intros [Hin%elem_of_singleton|?]%elem_of_union; done. }
    hook_cases; try done; by apply IH.
Qed.

(** A kind for which [Watch] always fails never enters the map. *)
Lemma releaseHook_loop_Watch_fails dec gvk :
  (∀ w, (Watch gvk w).1 ≠ None) →
  RESTMapping (GroupKind_of owner) (Version owner) = Ok RESTScopeNameRoot
  ∨ RESTMapping (GroupKind_of gvk) (Version gvk) ≠ Ok RESTScopeNameRoot →
  ∀ watches w, gvk ∉ watches → gvk ∉ hook_watches (loop dec watches w).
Proof.
  intros Hfail Hscope.
  induction dec as [|[u|e] dec IH]; intros watches w Hnew; [done| |done].
  simpl. destruct (decide (GroupVersionKind_of u ∈ watches)); [by apply IH|].
  destruct (decide (GroupVersionKind_of u = gvk)) as [Heq|Hne].
  - rewrite Heq.
    destruct (RESTMapping (GroupKind_of gvk) _) as [dep|?] eqn:Hd; [|done].
    destruct (RESTMapping (GroupKind_of owner) _) as [own|?] eqn:Ho; [|done].
    assert (negb (bool_decide (own = RESTScopeNameRoot))
            && bool_decide (dep = RESTScopeNameRoot) = false) as ->.
    { destruct Hscope as [[= ->]|Hdep]; [done|].
      destruct dep; [by rewrite andb_false_r|done]. }
    specialize (Hfail w). destruct (Watch gvk w) as [[?|] ?]; done.
  - assert (gvk ∉ {[GroupVersionKind_of u]} ∪ watches) as Hnew'.
    { intros [Hin%elem_of_singleton|?]%elem_of_union; done. }
    hook_cases; try done; by apply IH.
Qed.

(** With the owner's scope lookup failing, a pass adds nothing to the map
    and calls [Watch] for nothing. *)
Lemma releaseHook_loop_owner_fails dec err :
  RESTMapping (GroupKind_of owner) (Version owner) = Fail err →
  ∀ watches w,
    hook_watches (loop dec watches w) = watches
    ∧ ∀ gvk, CallWatch gvk ∉ hook_calls (loop dec watches w).
Proof.
  intros Hfail.
  induction dec as [|[u|e] dec IH]; intros watches w;
    [split; [done|by intros ? ?%elem_of_nil]|
    |split; [done|by intros ? ?%elem_of_nil]].
  simpl. destruct (decide (GroupVersionKind_of u ∈ watches)); [apply IH|].
  destruct (RESTMapping (GroupKind_of (GroupVersionKind_of u)) _); simpl.
  - rewrite Hfail. simpl. split; [done|].
    intros gvk. rewrite !elem_of_cons, elem_of_nil. intuition discriminate.
  - split; [done|].
    intros gvk. rewrite !elem_of_cons, elem_of_nil. intuition discriminate.
Qed.

(** X16: a kind that cannot be set up is not marked as seen, so a later pass
    tries it again: a kind whose scope lookup fails, or for which [Watch]
    fails whenever it is called, is not in the map after a pass unless it was
    before; and when the scope lookup of the owner fails a pass leaves the
    map as it was and makes no [Watch] call. *)
Theorem X16_releaseHook_leaves_failing_kinds_unseen release watches w :
  (∀ gvk err,
     RESTMapping (GroupKind_of gvk) (Version gvk) = Fail err →
     gvk ∉ watches →
     gvk ∉ hook_watches
            (releaseHook NewDecoder GroupVersionKind_of RESTMapping Watch
               owner release watches w))
  ∧ (∀ gvk,
       (∀ w', (Watch gvk w').1 ≠ None) →
       RESTMapping (GroupKind_of owner) (Version owner) = Ok RESTScopeNameRoot
       ∨ RESTMapping (GroupKind_of gvk) (Version gvk) ≠ Ok RESTScopeNameRoot →
       gvk ∉ watches →
       gvk ∉ hook_watches
              (releaseHook NewDecoder GroupVersionKind_of RESTMapping Watch
                 owner release watches w))
  ∧ (∀ err,
       RESTMapping (GroupKind_of owner) (Version owner) = Fail err →
       hook_watches
         (releaseHook NewDecoder GroupVersionKind_of RESTMapping Watch
            owner release watches w) = watches
       ∧ ∀ gvk,
           CallWatch gvk
             ∉ hook_calls
                 (releaseHook NewDecoder GroupVersionKind_of RESTMapping Watch
                    owner release watches w)).
Proof.
  unfold releaseHook. split; [|split].
  - intros gvk err Hfail. by eapply releaseHook_loop_lookup_fails.
  - intros gvk Hfail Hscope. by apply releaseHook_loop_Watch_fails.
  - intros err Hfail. by eapply releaseHook_loop_owner_fails.
Qed.

End ReleaseHookMoreFacts.

End ControllerMoreFacts.

(** ** Facts about the OLM client and installer *)
Module OLMFacts.
Import GoStrings OLMClient.

Lemma HasPrefix_app (prefix s : string) : HasPrefix (prefix +:+ s) prefix = true.
Proof.
  unfold HasPrefix. induction prefix as [|c prefix IH]; simpl.
  - by destruct s.
  - destruct (Ascii.ascii_dec c c); [done|congruence].
Qed.

Lemma string_drop_app (prefix s : string) :
  string_drop (String.length prefix) (prefix +:+ s) = s.
Proof. induction prefix as [|c prefix IH]; [by destruct s|done]. Qed.

Lemma TrimPrefix_app (prefix s : string) : TrimPrefix (prefix +:+ s) prefix = s.
Proof. unfold TrimPrefix. by rewrite HasPrefix_app, string_drop_app. Qed.

Section ClientFacts.
Context {W : Type}.
Variable Quote : string → string.
Variable semver_Parse : string → option error.
Variable IsNotFound : error → bool.
Variable IsNoMatchError : error → bool.
Variable List_CSVs : string → W → list ClusterServiceVersion * option error.

(** The loop keeps the first package server CSV it meets and fails at the
    second. *)
Lemma GetInstalledVersion_loop_filter items :
  ∀ pkgServerCSV,
    GetInstalledVersion_loop Quote items pkgServerCSV
    = match pkgServerCSV, filter (λ csv, is_pkgServerCSV csv) items with
      | found, [] => inl found
      | None, [csv] => inl (Some csv)
      | Some found, csv :: _ | None, found :: csv :: _ =>
          inr (ErrorString
                 ("more than one OLM (package server) version installed: "
                  +:+ Quote (CSV_Name found) +:+ " and "
                  +:+ Quote (CSV_Name csv)))
      end.
Proof.
  induction items as [|csv items IH]; intros found; [by destruct found|].
  simpl. destruct (is_pkgServerCSV csv) eqn:Hcsv.
  - rewrite filter_cons_True by (by rewrite Hcsv).
    destruct found as [found|]; [reflexivity|]. rewrite IH.
    by destruct (filter _ items).
  - rewrite filter_cons_False by (rewrite Hcsv; exact id). apply IH.
Qed.

(** X17: when the CSVs of the namespace can be listed,
    [GetInstalledVersion] goes by the package server CSVs among them, those
    named "packageserver" or with a name starting with "packageserver.": with
    none it returns [ErrOLMNotInstalled]; with exactly one, the version read
    off that CSV, whatever else is listed and wherever it stands; with more,
    an error naming the first two. *)
Theorem X17_GetInstalledVersion_by_package_server_CSVs namespace w items :
  List_CSVs namespace w = (items, None) →
  GetInstalledVersion Quote semver_Parse IsNotFound IsNoMatchError List_CSVs
    namespace w
  = match filter (λ csv, is_pkgServerCSV csv) items with
    | [] => ("", Some ErrOLMNotInstalled)
    | [csv] => getOLMVersionFromPackageServerCSV Quote semver_Parse csv
    | first :: second :: _ =>
        ("", Some (ErrorString
                     ("more than one OLM (package server) version installed: "
                      +:+ Quote (CSV_Name first) +:+ " and "
                      +:+ Quote (CSV_Name second))))
    end.
Proof.
  intros Hlist. unfold GetInstalledVersion. rewrite Hlist.
  rewrite GetInstalledVersion_loop_filter.
  destruct (filter _ items) as [|first [|second rest]]; done.
Qed.

(** X18: the version of a package server CSV is its "olm.version" label
    whenever it has one, unchecked and whatever the name; without the label,
    a name "packageserver.v" followed by a version that parses as a semantic
    version gives that version; and without the label, a name whose rest does
    not parse gives an error and no version. *)
Theorem X18_getOLMVersionFromPackageServerCSV_label_then_name :
  (∀ name labels ver,
     labels !! pkgServerOLMVersionLabel = Some ver →
     getOLMVersionFromPackageServerCSV Quote semver_Parse
       {| CSV_Name := name; CSV_Labels := Some labels |} = (ver, None))
  ∧ (∀ labels ver,
       (∀ m, labels = Some m → m !! pkgServerOLMVersionLabel = None) →
       semver_Parse ver = None →
       getOLMVersionFromPackageServerCSV Quote semver_Parse
         {| CSV_Name := "packageserver.v" +:+ ver; CSV_Labels := labels |}
       = (ver, None))
  ∧ (∀ name labels err,
       (∀ m, labels = Some m → m !! pkgServerOLMVersionLabel = None) →
       semver_Parse (TrimPrefix (TrimPrefix name "packageserver.") "v")
       = Some err →
       ∃ e, getOLMVersionFromPackageServerCSV Quote semver_Parse
              {| CSV_Name := name; CSV_Labels := labels |} = ("", Some e)).
Proof.
  split; [|split].
  - intros name labels ver Hver. unfold getOLMVersionFromPackageServerCSV.
    simpl. by rewrite Hver.
  - intros labels ver Hnone Hparse. unfold getOLMVersionFromPackageServerCSV.
    cbn [CSV_Name CSV_Labels].
    assert (TrimPrefix (TrimPrefix ("packageserver.v" +:+ ver)
                          pkgServerCSVOldNamePrefix) "v" = ver) as ->.
    { change ("packageserver.v" +:+ ver)
        with (pkgServerCSVOldNamePrefix +:+ ("v" +:+ ver)).
      by rewrite !TrimPrefix_app. }
    rewrite Hparse.
    destruct labels as [m|]; [|done]. by rewrite (Hnone m).
  - intros name labels err Hnone Hparse.
    unfold getOLMVersionFromPackageServerCSV. cbn [CSV_Name CSV_Labels].
    unfold pkgServerCSVOldNamePrefix. rewrite Hparse.
    destruct labels as [m|]; [|by eexists]. rewrite (Hnone m) by done.
    by eexists.
Qed.

End ClientFacts.

(** X19: [rolloutComplete] reports a finished rollout only without an
    error, for a deployment whose generation has been observed, whose
    progress has not timed out, and whose replica counts are in order: no
    more replicas than updated ones, no fewer available than updated, and,
    when the spec gives a count, at least that many updated, so at least as
    many available as asked for.  It reports it for every such deployment. *)
Theorem X19_rolloutComplete_true_iff
    (DeploymentProgressing TimedOutReason : string)
    (got : Deployment * option error) :
  (rolloutComplete DeploymentProgressing TimedOutReason got).1 = true
  ↔ got.2 = None
    ∧ (Generation got.1 ≤ ObservedGeneration got.1)%Z
    ∧ (∀ c, GetDeploymentCondition (Status_Conditions got.1)
              DeploymentProgressing = Some c →
            Cond_Reason c ≠ TimedOutReason)
    ∧ (∀ replicas, Spec_Replicas got.1 = Some replicas →
                   (replicas ≤ UpdatedReplicas got.1)%Z
                   ∧ (replicas ≤ AvailableReplicas got.1)%Z)
    ∧ (Status_Replicas got.1 ≤ UpdatedReplicas got.1)%Z
    ∧ (UpdatedReplicas got.1 ≤ AvailableReplicas got.1)%Z.
Proof.
  destruct got as [d [err|]]; simpl.
  { split; [done|]. by intros [? _]. }
  case_bool_decide as Hgen; simpl;
    [|split; [done|]; intros (_ & ? & _); lia].
  destruct (GetDeploymentCondition _ _) as [c|] eqn:Hcond.
  - case_bool_decide as Hreason; simpl.
    { split; [done|]. intros (_ & _ & Hc & _). by destruct (Hc c). }
    destruct (Spec_Replicas d) as [n|].
    + case_bool_decide as Hn; simpl.
      { split; [done|]. intros (_ & _ & _ & Hs & _).
        destruct (Hs n eq_refl). lia. }
      case_bool_decide as Hr; simpl.
      { split; [done|]. intros (_ & _ & _ & _ & ? & _). lia. }
      case_bool_decide as Ha; simpl.
      { split; [done|]. intros (_ & _ & _ & _ & _ & ?). lia. }
      split; [intros _|done].
      split; [done|]. split; [done|]. split; [by intros ? [= <-]|].
      split; [by intros ? [= <-]; lia|]. lia.
    + case_bool_decide as Hr; simpl.
      { split; [done|]. intros (_ & _ & _ & _ & ? & _). lia. }
      case_bool_decide as Ha; simpl.
      { split; [done|]. intros (_ & _ & _ & _ & _ & ?). lia. }
      split; [intros _|done].
      split; [done|]. split; [done|]. split; [by intros ? [= <-]|].
      split; [by intros ? [= <-]; lia|]. lia.
  - destruct (Spec_Replicas d) as [n|].
    + case_bool_decide as Hn; simpl.
      { split; [done|]. intros (_ & _ & _ & Hs & _).
        destruct (Hs n eq_refl). lia. }
      case_bool_decide as Hr; simpl.
      { split; [done|]. intros (_ & _ & _ & _ & ? & _). lia. }
      case_bool_decide as Ha; simpl.
      { split; [done|]. intros (_ & _ & _ & _ & _ & ?). lia. }
      split; [intros _|done].
      split; [done|]. split; [done|]. split; [by intros ? [= <-]|].
      split; [by intros ? [= <-]; lia|]. lia.
    + case_bool_decide as Hr; simpl.
      { split; [done|]. intros (_ & _ & _ & _ & ? & _). lia. }
      case_bool_decide as Ha; simpl.
      { split; [done|]. intros (_ & _ & _ & _ & _ & ?). lia. }
      split; [intros _|done].
      split; [done|]. split; [done|]. split; [by intros ? [= <-]|].
      split; [by intros ? [= <-]; lia|]. lia.
Qed.

End OLMFacts.

(** ** Facts about the OLM installer *)
Module InstallerFacts.
Import Installer.

Section Facts.
Context {W S : Type}.
Variable Quote : string → string.
Variable InstallVersion : string → string → W → option S * option error * W.
Variable GetInstalledVersion : string → W → string * option error.
Variable UninstallVersion : string → string → W → option error * W.
Variable GetStatus : string → string → W → option S * option error.

(** X20: [Uninstall] calls [UninstallVersion] at most once, in the
    manager's namespace and with the version the manager holds afterwards.
    That version is the supplied one when one was supplied, and it is the
    installed one whenever the installed version could be read: a supplied
    version that differs from the installed one is an error and nothing is
    uninstalled.  When [Uninstall] makes no call it returns an error and
    leaves cluster and manager as they were. *)
Theorem X20_Uninstall_removes_only_the_resolved_version (m : Manager) (w : W) :
  let out :=
    Uninstall (S:=S) Quote GetInstalledVersion UninstallVersion m w in
  (calls out = []
   ∨ calls out = [CallUninstallVersion (Namespace m) (Version (mgr out))])
  ∧ (calls out = [] → ret out ≠ None ∧ env out = w ∧ mgr out = m)
  ∧ (calls out ≠ [] →
     (Version m ≠ "" → Version (mgr out) = Version m)
     ∧ (∀ installed,
          GetInstalledVersion (Namespace m) w = (installed, None) →
          Version (mgr out) = installed)
     ∧ (ret out, env out)
       = UninstallVersion (Namespace m) (Version (mgr out)) w).
Proof.
  unfold Uninstall. simpl.
  destruct (GetInstalledVersion (Namespace m) w) as [version [err|]].
  - case_decide as Hv.
    + simpl. split; [by left|].
      split; [intros _; split; [discriminate|done]|intros Hc; exfalso; by apply Hc].
    + destruct (UninstallVersion _ _ w) as [[e|] w'] eqn:Hun; simpl;
        (split; [by right|]); (split; [done|]); intros _;
        (split; [done|]); (split; [by intros ? [=]|by rewrite Hun]).
  - case_decide as Hv.
    + case_decide as Hne.
      * simpl. split; [by left|].
        split; [intros _; split; [discriminate|done]|intros Hc; exfalso; by apply Hc].
      * assert (version = Version m) as -> by by destruct (decide (version = Version m)).
        destruct (UninstallVersion _ _ w) as [[e|] w'] eqn:Hun; simpl;
          (split; [by right|]); (split; [done|]); intros _;
          (split; [done|]); (split; [by intros ? [= <-]|by rewrite Hun]).
    + assert (Version m = "") as Hempty by by destruct (decide (Version m = "")).
      simpl. destruct (UninstallVersion _ _ w) as [[e|] w'] eqn:Hun; simpl;
        (split; [by right|]); (split; [done|]); intros _;
        (split; [done|]); (split; [by intros ? [= <-]|by rewrite Hun]).
Qed.

(** X21: [Status] and [Uninstall] settle the version in the same way: from
    the same manager and cluster, either both stop before calling the client,
    with the same error and the manager unchanged, or [Uninstall] calls
    [UninstallVersion] and [Status] calls [GetStatus] with the same namespace
    and version, and both leave the same manager. *)
Theorem X21_Status_and_Uninstall_settle_the_version_alike
    (m : Manager) (w : W) :
  let un := Uninstall (S:=S) Quote GetInstalledVersion UninstallVersion m w in
  let st := Status Quote GetInstalledVersion GetStatus m w in
  mgr un = mgr st
  ∧ ((calls un = [] ∧ calls st = [] ∧ ret un = ret st ∧ ret un ≠ None)
     ∨ ∃ version,
         calls un = [CallUninstallVersion (Namespace m) version]
         ∧ calls st = [CallGetStatus (Namespace m) version]
         ∧ Version (mgr un) = version).
Proof.
  unfold Uninstall, Status. simpl.
  destruct (GetInstalledVersion (Namespace m) w) as [version [err|]].
  - case_decide as Hv; simpl.
    + split; [done|]. by left.
    + destruct (UninstallVersion _ _ w) as [[e|] w'],
               (GetStatus _ _ w) as [status [e'|]]; simpl;
        (split; [done|]); right; by eexists.
  - case_decide as Hv; [case_decide as Hne|]; simpl.
    + split; [done|]. by left.
    + destruct (UninstallVersion _ _ w) as [[e|] w'],
               (GetStatus _ _ w) as [status [e'|]]; simpl;
        (split; [done|]); right; by eexists.
    + destruct (UninstallVersion _ _ w) as [[e|] w'],
               (GetStatus _ _ w) as [status [e'|]]; simpl;
        (split; [done|]); right; by eexists.
Qed.

End Facts.
End InstallerFacts.

(** ** Facts about the CRD template *)
Module CRDTemplateFacts.
Import GoStrings Apiext CRDTemplate.

Lemma append_nil (b : string) : "" +:+ b = b.
Proof. done. Qed.

Lemma append_cons (x : Ascii.ascii) (a b : string) :
  String x a +:+ b = String x (a +:+ b).
Proof. done. Qed.

Lemma append_assoc (a b c : string) : (a +:+ b) +:+ c = a +:+ (b +:+ c).
Proof.
  induction a as [|x a IH]; [done|]. by rewrite !append_cons, IH.
Qed.

Lemma Replace_LF_app (a b new : string) :
  Replace_LF (a +:+ b) new = Replace_LF a new +:+ Replace_LF b new.
Proof.
  induction a as [|x a IH]; [done|]. rewrite append_cons. simpl.
  destruct (Ascii.eqb x LF); rewrite IH; [|done].
  by rewrite append_assoc.
Qed.

Lemma Repeat_add (s : string) (m n : nat) :
  Repeat s (m + n) = Repeat s m +:+ Repeat s n.
Proof.
  induction m as [|m IH]; [done|].
  change (Repeat s (S m + n)) with (s +:+ Repeat s (m + n)).
  change (Repeat s (S m)) with (s +:+ Repeat s m).
  by rewrite IH, append_assoc.
Qed.

Lemma Replace_LF_pad (n : nat) (new : string) :
  Replace_LF (Repeat " " n) new = Repeat " " n.
Proof.
  induction n as [|n IH]; [done|].
  change (Repeat " " (S n)) with (" " +:+ Repeat " " n).
  by rewrite Replace_LF_app, IH.
Qed.

Lemma Replace_LF_Replace_LF (v p q : string) :
  Replace_LF p (String LF q) = p →
  Replace_LF (Replace_LF v (String LF p)) (String LF q)
  = Replace_LF v (String LF (q +:+ p)).
Proof.
  intros Hp. induction v as [|x v IH]; simpl; [done|].
  destruct (Ascii.eqb x LF) eqn:Hx.
  - rewrite !append_cons. simpl. rewrite ?Ascii.eqb_refl.
    rewrite Replace_LF_app, Hp, IH. by rewrite !append_cons, append_assoc.
  - simpl. by rewrite Hx, IH.
Qed.

Lemma Replace_LF_one_line (v new : string) :
  (∀ a b, v ≠ a +:+ String LF b) → Replace_LF v new = v.
Proof.
  induction v as [|x v IH]; intros Hv; simpl; [done|].
  destruct (Ascii.eqb x LF) eqn:Hx.
  - apply Ascii.eqb_eq in Hx as ->. by destruct (Hv "" v).
  - rewrite IH; [done|]. intros a b ->. by apply (Hv (String x a) b).
Qed.

Lemma Replace_LF_same (v : string) : Replace_LF v (String LF "") = v.
Proof.
  induction v as [|x v IH]; simpl; [done|].
  destruct (Ascii.eqb x LF) eqn:Hx; [|by rewrite IH].
  apply Ascii.eqb_eq in Hx as ->. by rewrite append_cons, append_nil, IH.
Qed.

(** X22: the template function [indent]: with a count that is not negative
    it puts the pad in front of every line of the text, a line feed ending a
    line: a text of one line gets the pad in front, and a text [a], line feed,
    [b] is indented part by part.  Indenting by [n] and then by [m] indents
    by [m + n], a count of zero changes nothing, and a negative count gives
    no text at all (the panic of [strings.Repeat]). *)
Theorem X22_indent_pads_every_line (m n : Z) (a b v : string) :
  (0 ≤ m)%Z → (0 ≤ n)%Z →
  ((∀ x y, v ≠ x +:+ String LF y) →
   indent n v = Some (Repeat " " (Z.to_nat n) +:+ v))
  ∧ (∃ a' b', indent n a = Some a' ∧ indent n b = Some b'
       ∧ indent n (a +:+ String LF b) = Some (a' +:+ String LF b'))
  ∧ indent n v ≫= indent m = indent (m + n) v
  ∧ indent 0 v = Some v
  ∧ (∀ k, (k < 0)%Z → indent k v = None).
Proof.
  intros Hm Hn. unfold indent.
  repeat case_decide; try lia. repeat split.
  - intros Hv. by rewrite Replace_LF_one_line.
  - eexists _, _. split; [done|]. split; [done|]. f_equal.
    rewrite Replace_LF_app. simpl. rewrite ?Ascii.eqb_refl.
    by rewrite !append_cons, !append_assoc.
  - simpl. f_equal.
    rewrite Replace_LF_app, Replace_LF_pad, Replace_LF_Replace_LF
      by apply Replace_LF_pad.
    rewrite Z2Nat.inj_add, Repeat_add by lia. by rewrite append_assoc.
  - simpl. by rewrite append_nil, Replace_LF_same.
  - intros k Hk. by case_decide.
Qed.

Section SetTemplateDefaultsFacts.
Context {T : Type}.
Variable zero : T.
Variable Join_bases : string → string.
Variable Replace : Resource → string → string.
Variable crdTemplateV1 : string.
Variable crdTemplateV1Beta1 : string.

(** X23: [SetTemplateDefaults] fails exactly for a CRD version other than
    the empty one, ["v1"] and ["v1beta1"]; it then leaves the template body
    as it was, but has already set the path, the action and the schema.  In
    every case the schema it leaves has a description that is not empty, and
    a schema that came with a description is left as it was.  The defaults
    are stable: a second call gives the same error, schema, template body
    and action, and only sends the path through the replacer once more. *)
Theorem X23_SetTemplateDefaults_fills_only_what_is_missing (f : CRD T) :
  let run :=
    SetTemplateDefaults zero Join_bases Replace crdTemplateV1
      crdTemplateV1Beta1 in
  let out := run f in
  let again := run out.2 in
  (out.1 = None ↔ CRDVersion f ∈ ["" ; "v1"; "v1beta1"])
  ∧ (out.1 ≠ None → TemplateBody out.2 = TemplateBody f)
  ∧ IfExists out.2 = Error_
  ∧ (∃ s, SpecSchema out.2 = Some s ∧ Props_Description s ≠ ""
       ∧ (∀ s0, SpecSchema f = Some s0 → Props_Description s0 ≠ "" → s = s0))
  ∧ again.1 = out.1
  ∧ SpecSchema again.2 = SpecSchema out.2
  ∧ TemplateBody again.2 = TemplateBody out.2
  ∧ IfExists again.2 = IfExists out.2
  ∧ (Path out.2 ≠ "" → Path again.2 = Replace (Resource_ f) (Path out.2)).
Proof.
  intros run out again. subst run out again.
  assert (∀ k, "Spec defines the desired state of " +:+ k ≠ "") as Hdesc
    by done.
  assert (CRDVersion f ∈ ["" ; "v1"; "v1beta1"]
          ↔ (CRDVersion f = "" ∨ CRDVersion f = "v1")
            ∨ CRDVersion f = "v1beta1") as ->.
  { rewrite !elem_of_cons, elem_of_nil. tauto. }
  assert (∃ s, SpecSchema
                 (SetTemplateDefaults zero Join_bases Replace crdTemplateV1
                    crdTemplateV1Beta1 f).2 = Some s
               ∧ Props_Description s ≠ ""
               ∧ (∀ s0, SpecSchema f = Some s0 → Props_Description s0 ≠ "" → s = s0))
    as (s & Hs & Hd & Hkeep).
  { unfold SetTemplateDefaults.
    destruct (SpecSchema f) as [s0|]; [case_decide|];
      repeat case_decide; simpl; eexists; (split; [done|]); simpl;
      (split; [first [done|apply Hdesc]|]); try done; by intros ? [= <-]. }
  split; [|split; [|split; [|split; [by exists s|]]]].
  - unfold SetTemplateDefaults.
    repeat case_decide; simpl; try tauto; (split; [done|]); by intros [|].
  - unfold SetTemplateDefaults. by repeat case_decide.
  - unfold SetTemplateDefaults. by repeat case_decide.
  - clear s Hs Hd Hkeep. unfold SetTemplateDefaults.
    destruct (SpecSchema f) as [s0|];
      [destruct (decide (Props_Description s0 = "")) as [Hd|Hd]|];
      (destruct (decide (CRDVersion f = "" ∨ CRDVersion f = "v1")) as [Hv|Hv];
       [|destruct (decide (CRDVersion f = "v1beta1")) as [Hb|Hb]]);
      simpl; repeat case_decide; simpl in *; try tauto;
      try (exfalso; eapply Hdesc; eassumption);
      repeat split; try done; by intros [].
Qed.

End SetTemplateDefaultsFacts.

End CRDTemplateFacts.

(** ** Facts about the API scaffolder's [loadSchema] *)
Module ScaffoldsFacts.
Import Apiext Scaffolds.

(** Induction on a chart tree: the dependencies of a chart come first. *)
Lemma Chart_tree_ind (P : Chart → Prop) :
  (∀ name raw dependencies,
     Forall P dependencies → P (MkChart name raw dependencies)) →
  ∀ chrt, P chrt.
Proof.
  intros IH. fix rec 1. intros [name raw dependencies]. apply IH.
  induction dependencies as [|dep dependencies IHd]; constructor;
    [apply rec|apply IHd].
Qed.

Lemma Forall_flat_map {A B} (P : B → Prop) (f : A → list B) (l : list A) :
  Forall P (flat_map f l) ↔ Forall (λ x, Forall P (f x)) l.
Proof.
  induction l as [|x l IH]; simpl.
  - split; constructor.
  - rewrite Forall_app, Forall_cons, IH. tauto.
Qed.

Section LoadSchemaFacts.
Context {T : Type} `{EqDecision T}.
Variable zero : T.
Variable Quote : string → string.
Variable Unmarshal : string → JSONSchemaProps T + error.

Local Abbreviation load := (loadSchema zero Quote Unmarshal).
Local Abbreviation loop := (loadSchema_deps zero load).

Lemma loadSchema_unfold name raw dependencies :
  load (MkChart name raw dependencies)
  = if decide (raw ≠ "")
    then
      match Unmarshal raw with
      | inr err =>
          (None, Some (ErrorString ("failed to parse chart " +:+ Quote name
                                    +:+ " schema: " +:+ Error err)))
      | inl schema =>
          loop dependencies
            (MkProps "" (Props_Description schema) (Props_Type schema)
               (Props_Properties schema) (Props_XPreserveUnknownFields schema)
               (Props_Other schema))
      end
    else loop dependencies (Props_zero zero).
Proof. done. Qed.

Lemma set_property_lookup name (depSchema schema : JSONSchemaProps T) n :
  Props_Properties (set_property name depSchema schema) ≫= (.!! n)
  = if decide (name = n) then Some depSchema
    else Props_Properties schema ≫= (.!! n).
Proof.
  unfold set_property. destruct (Props_Properties schema) as [m|]; simpl.
  - case_decide as Hn; [subst; apply lookup_insert_eq|].
    by apply lookup_insert_ne.
  - case_decide as Hn; [subst; apply lookup_singleton_eq|].
    by apply lookup_singleton_ne.
Qed.

Lemma set_property_fields name (depSchema schema : JSONSchemaProps T) :
  Props_Schema (set_property name depSchema schema) = Props_Schema schema
  ∧ Props_Description (set_property name depSchema schema)
    = Props_Description schema
  ∧ Props_XPreserveUnknownFields (set_property name depSchema schema)
    = Props_XPreserveUnknownFields schema
  ∧ Props_Other (set_property name depSchema schema) = Props_Other schema
  ∧ is_Some (Props_Properties (set_property name depSchema schema))
  ∧ Props_Type (set_property name depSchema schema)
    = match Props_Properties schema with
      | None => "object"
      | Some _ => Props_Type schema
      end.
Proof.
  unfold set_property. by destruct (Props_Properties schema); simpl.
Qed.

(** What the loop over the dependencies returns when it returns a schema. *)
Lemma loadSchema_deps_Some dependencies :
  ∀ schema s e,
    loop dependencies schema = (Some s, e) →
    e = None
    ∧ is_zero zero s = false
    ∧ Props_Schema s = Props_Schema schema
    ∧ Props_Description s = Props_Description schema
    ∧ Props_XPreserveUnknownFields s = Props_XPreserveUnknownFields schema
    ∧ Props_Other s = Props_Other schema
    ∧ Props_Type s
      = match Props_Properties schema,
              filter (λ dep, is_Some (load dep).1) dependencies with
        | None, _ :: _ => "object"
        | _, _ => Props_Type schema
        end
    ∧ ∀ n,
        Props_Properties s ≫= (.!! n)
        = match last (filter (λ dep, Chart_Name dep = n
                                     ∧ is_Some (load dep).1) dependencies) with
          | Some dep => (load dep).1
          | None => Props_Properties schema ≫= (.!! n)
          end.
Proof.
  induction dependencies as [|dep dependencies IH]; intros schema s e; simpl.
  - unfold loadSchema_return. destruct (is_zero zero schema) eqn:Hz; [done|].
    intros [= <- <-]. repeat split; try done. by destruct (Props_Properties _).
  - destruct (load dep) as [[depSchema|] [err|]] eqn:Hdep; try done.
    + intros Hs.
      apply IH in Hs
        as (-> & Hz & Hschema & Hdesc & Hxp & Hother & Htype & Hp).
      destruct (set_property_fields (Chart_Name dep) depSchema schema)
        as (Hschema' & Hdesc' & Hxp' & Hother' & [m Hm] & Htype').
      rewrite filter_cons_True by (cbv beta; rewrite Hdep; by eexists).
      split; [done|]. split; [done|]. split; [congruence|].
      split; [congruence|]. split; [congruence|]. split; [congruence|].
      split.
      * rewrite Htype, Hm, Htype'. by destruct (Props_Properties schema).
      * intros n. rewrite Hp, set_property_lookup.
        destruct (decide (Chart_Name dep = n)) as [Hn|Hn].
        -- rewrite filter_cons_True
             by (cbv beta; rewrite Hdep; split; [done|by eexists]).
           match goal with
           | |- context [last (filter ?P dependencies)] =>
               destruct (filter P dependencies) as [|x l]
           end; simpl; [by rewrite Hdep|].
           change (last (dep :: x :: l)) with (last (x :: l)).
           destruct (last (x :: l)) eqn:Hlast; [done|].
           by apply last_None in Hlast.
        -- by rewrite filter_cons_False by tauto.
    + intros Hs.
      apply IH in Hs
        as (-> & Hz & Hschema & Hdesc & Hxp & Hother & Htype & Hp).
      rewrite filter_cons_False by (cbv beta; rewrite Hdep; by intros [? ?]).
      repeat split; try done.
      intros n. rewrite Hp.
      by rewrite filter_cons_False
        by (cbv beta; rewrite Hdep; by intros [_ [? ?]]).
Qed.

(** The loop fails exactly when the loading of a dependency fails. *)
Lemma loadSchema_deps_error dependencies :
  ∀ schema,
    (loop dependencies schema).2 = None
    ↔ Forall (λ dep, (load dep).2 = None) dependencies.
Proof.
  induction dependencies as [|dep dependencies IH]; intros schema; simpl.
  - unfold loadSchema_return. by destruct (is_zero zero schema).
  - rewrite Forall_cons.
    destruct (load dep) as [[depSchema|] [err|]] eqn:Hdep; simpl;
      rewrite ?IH; try tauto; split; try done; by intros [? _].
Qed.

(** Dependencies that load to nil leave the schema as it was. *)
Lemma loadSchema_deps_nil dependencies schema :
  Forall (λ dep, load dep = (None, None)) dependencies →
  loop dependencies schema = loadSchema_return zero schema.
Proof.
  induction 1 as [|dep dependencies Hdep _ IH]; simpl; [done|].
  by rewrite Hdep.
Qed.

(** X24: what [loadSchema] returns when it returns a schema: no error comes
    with it, the schema is not the zero value and its [$schema] is empty.
    Its property of a name is the schema of the last dependency of that name
    that has a schema, which also replaces a property the chart's own schema
    gives that name; where there is no such dependency it is the property of
    the chart's own schema.  Its type is ["object"] when the chart's own
    schema has no properties and some dependency has a schema, and the type
    of the chart's own schema otherwise; the description, the
    [x-kubernetes-preserve-unknown-fields] flag and the other fields are
    those of the chart's own schema. *)
Theorem X24_loadSchema_nests_dependency_schemas_by_name
    name raw dependencies s e :
  loadSchema zero Quote Unmarshal (MkChart name raw dependencies)
  = (Some s, e) →
  let own :=
    if decide (raw ≠ "")
    then
      match Unmarshal raw with
      | inl schema => schema
      | inr _ => Props_zero zero
      end
    else Props_zero zero in
  e = None
  ∧ is_zero zero s = false
  ∧ Props_Schema s = ""
  ∧ Props_Description s = Props_Description own
  ∧ Props_XPreserveUnknownFields s = Props_XPreserveUnknownFields own
  ∧ Props_Other s = Props_Other own
  ∧ Props_Type s
    = match Props_Properties own,
            filter (λ dep, is_Some (loadSchema zero Quote Unmarshal dep).1)
              dependencies with
      | None, _ :: _ => "object"
      | _, _ => Props_Type own
      end
  ∧ ∀ n,
      Props_Properties s ≫= (.!! n)
      = match last (filter
                      (λ dep, Chart_Name dep = n
                              ∧ is_Some (loadSchema zero Quote Unmarshal dep).1)
                      dependencies) with
        | Some dep => (loadSchema zero Quote Unmarshal dep).1
        | None => Props_Properties own ≫= (.!! n)
        end.
Proof.
  rewrite loadSchema_unfold. intros Hs own. subst own.
  destruct (decide (raw ≠ "")) as [Hraw|Hraw];
    [destruct (Unmarshal raw) as [schema|err]; [|done]|];
    apply loadSchema_deps_Some
      in Hs as (-> & Hz & Hschema & Hdesc & Hxp & Hother & Htype & Hp);
    simpl in *; by repeat split.
Qed.

Lemma loadSchema_error_iff chrt :
  (load chrt).2 = None
  ↔ Forall (λ c, Chart_Schema c = ""
                 ∨ ∃ schema, Unmarshal (Chart_Schema c) = inl schema)
      (charts chrt).
Proof.
  induction chrt as [name raw dependencies IH] using Chart_tree_ind.
  rewrite loadSchema_unfold.
  change (charts (MkChart name raw dependencies))
    with (MkChart name raw dependencies :: flat_map charts dependencies).
  rewrite !Forall_cons, !Forall_flat_map. simpl.
  assert (Forall (λ dep, (load dep).2 = None) dependencies
          ↔ Forall (λ x, Forall (λ c, Chart_Schema c = ""
                       ∨ ∃ schema, Unmarshal (Chart_Schema c) = inl schema)
                      (charts x)) dependencies) as Hdeps.
  { clear -IH. induction IH as [|dep dependencies Hdep _ IHd];
      [split; constructor|].
    rewrite !Forall_cons, IHd, Hdep. tauto. }
  destruct (decide (raw ≠ "")) as [Hraw|Hraw];
    [destruct (Unmarshal raw) as [schema|err]; simpl|];
    rewrite ?loadSchema_deps_error, ?Hdeps.
  - split; [intros ?; split; [right; by eexists|done]|by intros [_ ?]].
  - split; [done|]. by intros [[?|[? ?]] _].
  - split; [intros ?; split; [left|done]|by intros [_ ?]].
    by destruct (decide (raw = "")); [|destruct Hraw].
Qed.

Lemma loadSchema_no_schema chrt :
  Forall (λ c, Chart_Schema c = "") (charts chrt) →
  load chrt = (None, None).
Proof.
  induction chrt as [name raw dependencies IH] using Chart_tree_ind.
  rewrite loadSchema_unfold.
  change (charts (MkChart name raw dependencies))
    with (MkChart name raw dependencies :: flat_map charts dependencies).
  rewrite !Forall_cons, !Forall_flat_map. simpl.
  intros [-> Hdeps]. rewrite decide_False by (by intros ?).
  rewrite loadSchema_deps_nil.
  - unfold loadSchema_return, is_zero. simpl.
    by rewrite bool_decide_eq_true_2.
  - clear -IH Hdeps. induction IH as [|dep dependencies Hdep _ IHd];
      [constructor|].
    apply Forall_cons in Hdeps as [? ?]. constructor; auto.
Qed.

(** X25: [loadSchema] fails exactly when some chart of the tree has a
    schema that does not parse: the dependencies are loaded whether or not
    the chart itself has a schema.  When no chart of the tree has a schema,
    it returns neither a schema nor an error. *)
Theorem X25_loadSchema_fails_iff_a_schema_of_the_tree_does_not_parse chrt :
  ((loadSchema zero Quote Unmarshal chrt).2 = None
   ↔ Forall (λ c, Chart_Schema c = ""
                  ∨ ∃ schema, Unmarshal (Chart_Schema c) = inl schema)
       (charts chrt))
  ∧ (Forall (λ c, Chart_Schema c = "") (charts chrt) →
     loadSchema zero Quote Unmarshal chrt = (None, None)).
Proof.
  split; [apply loadSchema_error_iff|apply loadSchema_no_schema].
Qed.

Section CRDOfChart.
Import CRDTemplate.
Variable Join_bases : string → string.
Variable Replace : Resource → string → string.
Variable crdTemplateV1 : string.
Variable crdTemplateV1Beta1 : string.

(** X28: the CRD that [scaffold] builds with the schema [loadSchema]
    returned, after [SetTemplateDefaults].  For a chart tree without any
    schema its spec schema is the default one: the default description, type
    ["object"], no properties and unknown fields preserved.  For a chart
    with a schema it is that schema, its [$schema] empty, with the default
    description put in only where the schema has none: the type, the
    properties and the flag for unknown fields are the chart's, so unknown
    fields are preserved only where the chart's schema says so. *)
Theorem X28_scaffold_CRD_takes_the_chart_schema chrt (f : CRD T) :
  SpecSchema f = (loadSchema zero Quote Unmarshal chrt).1 →
  let out :=
    SetTemplateDefaults zero Join_bases Replace crdTemplateV1
      crdTemplateV1Beta1 f in
  let specDescription :=
    "Spec defines the desired state of " +:+ Kind (Resource_ f) in
  (Forall (λ c, Chart_Schema c = "") (charts chrt) →
   SpecSchema out.2
   = Some (MkProps "" specDescription "object" None (Some true) zero))
  ∧ (∀ s,
       (loadSchema zero Quote Unmarshal chrt).1 = Some s →
       SpecSchema out.2
       = Some (MkProps ""
                 (if decide (Props_Description s = "") then specDescription
                  else Props_Description s)
                 (Props_Type s) (Props_Properties s)
                 (Props_XPreserveUnknownFields s) (Props_Other s))).
Proof.
  intros Hf out specDescription. subst out specDescription. split.
  - intros Hnone. rewrite loadSchema_no_schema in Hf by done. simpl in Hf.
    unfold SetTemplateDefaults. rewrite Hf. by repeat case_decide.
  - intros s Hs. rewrite Hs in Hf.
    assert (Props_Schema s = "") as Hschema.
    { destruct chrt as [name raw dependencies].
      destruct (load (MkChart name raw dependencies)) as [s' e] eqn:Hload.
      simpl in Hs. subst s'.
      rewrite loadSchema_unfold in Hload.
      destruct (decide (raw ≠ "")) as [Hraw|Hraw];
        [destruct (Unmarshal raw) as [schema|err]; [|done]|];
        by apply loadSchema_deps_Some in Hload as (_ & _ & -> & _). }
    unfold SetTemplateDefaults. rewrite Hf.
    destruct s as [schema description type properties xp other].
    simpl in *. subst schema. by repeat case_decide.
Qed.

End CRDOfChart.

End LoadSchemaFacts.

End ScaffoldsFacts.

(** ** Facts about the logging owner handler *)
Module OwnerHandlerFacts.
Import Controller OwnerHandler.

Section HandlerFacts.
Variable ParseGroupVersion : string → GroupVersion * option error.

(** The test of the loop: the group the parser gave and the kind are the
    owner's. *)
Local Abbreviation is_owner ownerGVK :=
  (λ ownerRef,
     Group ownerGVK = GV_Group (ParseGroupVersion (APIVersion ownerRef)).1
     ∧ Kind ownerGVK = Ref_Kind ownerRef).

(** The error entry of a reference whose API version does not parse. *)
Local Abbreviation parse_errors :=
  (flat_map (λ ownerRef,
     match (ParseGroupVersion (APIVersion ownerRef)).2 with
     | Some err =>
         [LogError err "Could not parse OwnerReference APIVersion"
            ["api version"; APIVersion ownerRef]]
     | None => []
     end)).

Lemma extractTypedOwnerReference_head ownerGVK ownerReferences :
  (extractTypedOwnerReference ParseGroupVersion ownerGVK ownerReferences).1
  = head (filter (is_owner ownerGVK) ownerReferences).
Proof.
  induction ownerReferences as [|ownerRef ownerReferences IH]; simpl; [done|].
  destruct (ParseGroupVersion (APIVersion ownerRef)) as [refGV err] eqn:Hgv.
  case_decide as Hown.
  - by rewrite filter_cons_True by (by rewrite Hgv).
  - rewrite filter_cons_False by (by rewrite Hgv).
    by destruct (extractTypedOwnerReference _ _ _).
Qed.

Lemma extractTypedOwnerReference_no_Info ownerGVK ownerReferences :
  filter is_LogInfo
    (extractTypedOwnerReference ParseGroupVersion ownerGVK ownerReferences).2
  = [].
Proof.
  induction ownerReferences as [|ownerRef ownerReferences IH]; simpl; [done|].
  destruct (ParseGroupVersion (APIVersion ownerRef)) as [refGV [err|]];
    case_decide; try done;
    destruct (extractTypedOwnerReference _ _ _); simpl in *;
    by rewrite ?filter_app, ?IH.
Qed.

(** X26: [extractTypedOwnerReference] returns the first reference whose
    kind is the owner's and whose API version the parser gives the owner's
    group, the version of neither being looked at; the references after it
    are not parsed.  A reference whose API version does not parse is logged
    and still compared, with the group the parser returned.  Without such a
    reference it returns nil after having parsed them all. *)
Theorem X26_extractTypedOwnerReference_returns_first_of_group_and_kind
    ownerGVK before ownerRef after ownerReferences :
  (Forall (λ r, ¬ is_owner ownerGVK r) before →
   is_owner ownerGVK ownerRef →
   extractTypedOwnerReference ParseGroupVersion ownerGVK
     (before ++ ownerRef :: after)
   = (Some ownerRef, parse_errors (before ++ [ownerRef])))
  ∧ (Forall (λ r, ¬ is_owner ownerGVK r) ownerReferences →
     extractTypedOwnerReference ParseGroupVersion ownerGVK ownerReferences
     = (None, parse_errors ownerReferences))
  ∧ (∀ version,
       extractTypedOwnerReference ParseGroupVersion
         (GVK (Group ownerGVK) version (Kind ownerGVK)) ownerReferences
       = extractTypedOwnerReference ParseGroupVersion ownerGVK
           ownerReferences).
Proof.
  split; [|split].
  - intros Hbefore Hown.
    induction Hbefore as [|r before Hr _ IH]; simpl.
    + destruct (ParseGroupVersion (APIVersion ownerRef)) as [refGV err].
      rewrite decide_True by done. by rewrite app_nil_r.
    + destruct (ParseGroupVersion (APIVersion r)) as [refGV err].
      rewrite decide_False by done. by rewrite IH.
  - induction 1 as [|r l Hr _ IH]; simpl; [done|].
    destruct (ParseGroupVersion (APIVersion r)) as [refGV err].
    rewrite decide_False by done. by rewrite IH.
  - intros version.
    induction ownerReferences as [|r l IH]; simpl; [done|].
    destruct (ParseGroupVersion (APIVersion r)) as [refGV err].
    by rewrite IH.
Qed.

(** X27: [logEvent] writes its message at most once, and exactly when the
    object has a reference to the owner's group and kind or, failing that,
    the new object is given and has one.  The owner it names is the first
    such reference of the object, and only without one that of the new
    object; the kind, name and namespace it names are always the object's,
    also when the owner is the new object's, and the namespace is left out
    when it is empty. *)
Theorem X27_logEvent_names_the_object_and_the_first_owner_found
    ownerType eventType object newObject :
  let first o := head (filter (is_owner ownerType) (OwnerReferences o)) in
  let found :=
    match first object with
    | Some ownerReference => Some ownerReference
    | None => newObject ≫= first
    end in
  filter is_LogInfo
    (logEvent ParseGroupVersion ownerType eventType object newObject)
  = match found with
    | Some ownerReference =>
        [LogInfo 1 "OwnerReference handler event"
           (["Event type"; eventType;
             "GroupVersionKind"; GroupVersionKind_String object;
             "Name"; Name object]
            ++ (if decide (Namespace object = "") then []
                else ["Namespace"; Namespace object])
            ++ ["Owner APIVersion"; APIVersion ownerReference;
                "Owner Kind"; Ref_Kind ownerReference;
                "Owner Name"; Ref_Name ownerReference])]
    | None => []
    end.
Proof.
  intros first found. subst first found. unfold logEvent.
  pose proof (extractTypedOwnerReference_head ownerType
                (OwnerReferences object)) as Hhead.
  pose proof (extractTypedOwnerReference_no_Info ownerType
                (OwnerReferences object)) as Hlogs.
  destruct (extractTypedOwnerReference _ _ (OwnerReferences object))
    as [[ownerReference|] logged]; simpl in *; rewrite <- Hhead.
  - rewrite filter_app, Hlogs. simpl.
    destruct newObject; by repeat case_decide.
  - destruct newObject as [new|]; simpl; [|done].
    pose proof (extractTypedOwnerReference_head ownerType
                  (OwnerReferences new)) as Hhead'.
    pose proof (extractTypedOwnerReference_no_Info ownerType
                  (OwnerReferences new)) as Hlogs'.
    destruct (extractTypedOwnerReference _ _ (OwnerReferences new))
      as [[ownerReference|] more]; simpl in *; rewrite <- Hhead';
      rewrite ?filter_app, Hlogs, Hlogs'; [|done].
    simpl. by repeat case_decide.
Qed.

End HandlerFacts.

End OwnerHandlerFacts.

(** ** Runs of the further facts on the stand-ins *)
Module FurtherRuns.
Import Finalizer Controller Doubles Standins FinalizerFacts ManagerFacts.

Lemma fm_ab_a : finalizers fm_ab !! "a" = Some succeeds.
Proof. by vm_compute. Qed.

Lemma a_not_in_x : "a" ∉ GetFinalizers (res ["x"]).
Proof. apply (bool_decide_unpack _). by vm_compute. Qed.

Lemma X1_witness :
  finalizers fm_ab !! "a" = Some succeeds
  ∧ succeeds (res ["x"; "a"; "y"; "a"]) 0 = (None, res ["x"; "a"; "y"; "a"], 0)
  ∧ ∃ out,
      FinalizeOne fm_ab "a" (res ["x"; "a"; "y"; "a"]) 0 = Some out
      ∧ ret out = None
      ∧ env out = 0
      ∧ calls out
        = [CallFinalize "a"; CallSetFinalizers (GetFinalizers (obj out))]
      ∧ ((("a" ∉ GetFinalizers (res ["x"; "a"; "y"; "a"]))
          ∧ GetFinalizers (obj out)
            = GetFinalizers (res ["x"; "a"; "y"; "a"]))
         ∨ ∃ pre post,
             GetFinalizers (res ["x"; "a"; "y"; "a"]) = pre ++ "a" :: post
             ∧ ("a" ∉ pre)
             ∧ GetFinalizers (obj out) = pre ++ post).
Proof.
  split; [exact fm_ab_a|]. split; [reflexivity|].
  apply (X1_FinalizeOne_removes_first_occurrence
           fm_ab "a" succeeds (res ["x"; "a"; "y"; "a"]) 0
           (res ["x"; "a"; "y"; "a"]) 0); [exact fm_ab_a|reflexivity].
Defined.

Lemma X2_witness :
  finalizers fm_ab !! "a" = Some succeeds
  ∧ ("a" ∉ GetFinalizers (res ["x"]))
  ∧ (∃ out, Finalize fm_ab (res ["x"]) 0 = Some out
            ∧ CallFinalize "a" ∉ calls out)
  ∧ (∃ out, FinalizeOne fm_ab "a" (res ["x"]) 0 = Some out
            ∧ head (calls out) = Some (CallFinalize "a")).
Proof.
  split; [exact fm_ab_a|]. split; [exact a_not_in_x|].
  apply (X2_FinalizeOne_runs_unlisted_name_Finalize_does_not
           fm_ab "a" succeeds (res ["x"]) 0); [exact fm_ab_a|exact a_not_in_x].
Defined.

Lemma X4_witness :
  "b" ∈ GetFinalizers (obj (ReconcileOne (W:=nat) "b" (res ["a"]) 0))
  ∧ ret (ReconcileOne (W:=nat) "b" (res ["a"]) 0)
    = (bool_decide ("b" ∉ GetFinalizers (res ["a"])), None)
  ∧ GetFinalizers (obj (ReconcileOne (W:=nat) "b" (res ["a"]) 0))
    = (if bool_decide ("b" ∈ GetFinalizers (res ["a"]))
       then GetFinalizers (res ["a"]) else GetFinalizers (res ["a"]) ++ ["b"])
  ∧ ReconcileOne "b" (obj (ReconcileOne (W:=nat) "b" (res ["a"]) 0))
      (env (ReconcileOne (W:=nat) "b" (res ["a"]) 0))
    = Result (false, None) (obj (ReconcileOne (W:=nat) "b" (res ["a"]) 0))
        (env (ReconcileOne (W:=nat) "b" (res ["a"]) 0)) [].
Proof. exact (X4_ReconcileOne_adds_once (W:=nat) "b" (res ["a"]) 0). Defined.

Lemma X5_witness :
  ("a" ∉ GetFinalizers (res ["x"]))
  ∧ finalizers fm_ab !! "a" = Some succeeds
  ∧ succeeds (obj (ReconcileOne (W:=nat) "a" (res ["x"]) 0)) 0
    = (None, res ["x"; "a"], 0)
  ∧ GetFinalizers (res ["x"; "a"])
    = GetFinalizers (obj (ReconcileOne (W:=nat) "a" (res ["x"]) 0))
  ∧ ∃ out,
      FinalizeOne fm_ab "a" (obj (ReconcileOne (W:=nat) "a" (res ["x"]) 0)) 0
      = Some out
      ∧ ret out = None
      ∧ GetFinalizers (obj out) = GetFinalizers (res ["x"]).
Proof.
  split; [exact a_not_in_x|]. split; [exact fm_ab_a|].
  split; [by vm_compute|]. split; [by vm_compute|].
  apply (X5_ReconcileOne_then_FinalizeOne_restores_list
           fm_ab "a" succeeds (res ["x"]) 0 (res ["x"; "a"]) 0);
    [exact a_not_in_x|exact fm_ab_a|by vm_compute|by vm_compute].
Defined.

Lemma xy_unregistered name :
  name ∈ GetFinalizers (res ["x"; "y"]) → finalizers fm_ab !! name = None.
Proof.
  simpl. rewrite !elem_of_cons, elem_of_nil.
  intros [->|[->|[]]]; by vm_compute.
Qed.

Lemma X7_witness :
  (∀ name, name ∈ GetFinalizers (res ["x"; "y"]) →
           finalizers fm_ab !! name = None)
  ∧ Finalize fm_ab (res ["x"; "y"]) 0
    = Some (Result None
              (SetFinalizers (GetFinalizers (res ["x"; "y"])) (res ["x"; "y"]))
              0 [CallSetFinalizers (GetFinalizers (res ["x"; "y"]))]).
Proof.
  split; [exact xy_unregistered|].
  apply (X7_Finalize_without_registered_names_only_rewrites_list
           fm_ab (res ["x"; "y"]) 0).
  exact xy_unregistered.
Defined.

Lemma X8_witness :
  ret <$> Finalize fm_ab (res ["x"; "b"; "y"; "a"]) 1 = Some None
  ∧ ∃ out,
      Finalize fm_ab (res ["x"; "b"; "y"; "a"]) 1 = Some out
      ∧ ∀ w',
          ∃ out',
            Finalize fm_ab (obj out) w' = Some out'
            ∧ ret out' = None
            ∧ env out' = w'
            ∧ calls out' = [CallSetFinalizers (GetFinalizers (obj out))]
            ∧ GetFinalizers (obj out') = GetFinalizers (obj out).
Proof.
  split; [by vm_compute|].
  apply (X8_Finalize_after_nil_Finalize_runs_nothing
           fm_ab (res ["x"; "b"; "y"; "a"]) 1).
  by vm_compute.
Defined.

Lemma X9_witness :
  ret <$> Finalize fm_ab (res ["a"; "x"; "a"; "b"]) 1 = Some None
  ∧ ∃ out,
      Finalize fm_ab (res ["a"; "x"; "a"; "b"]) 1 = Some out
      ∧ length (filter (λ ev, ev = CallFinalize "a") (calls out))
        = if decide (is_Some (finalizers fm_ab !! "a"))
          then length (filter (λ n, n = "a")
                         (GetFinalizers (res ["a"; "x"; "a"; "b"])))
          else 0.
Proof.
  split; [by vm_compute|].
  apply (X9_Finalize_runs_action_once_per_occurrence
           fm_ab "a" (res ["a"; "x"; "a"; "b"]) 1).
  by vm_compute.
Defined.

End FurtherRuns.

Module FurtherControllerRuns.
Import Finalizer Controller Doubles Standins ControllerMoreFacts.

Local Abbreviation hook :=
  (releaseHook (W:=nat) NewDecoder_double GroupVersionKind_double
     RESTMapping_double Watch_double owner_double).

Lemma nginx_cr_finalizer : "uninstall-helm-release" ∈ GetFinalizers nginx_cr.
Proof. apply (bool_decide_unpack _). by vm_compute. Qed.

(** The release is uninstalled, the status write fails: [Finalize] returns
    the error of the write after the one action, and writes no list. *)
Lemma X13_witness :
  "uninstall-helm-release" ∈ GetFinalizers nginx_cr
  ∧ ∃ out,
      Finalize
        (Add_FinalizerManager UninstallRelease_double StatusFor_double
           updateResourceStatus_failing Now_double) nginx_cr 0
      = Some out
      ∧ ret out = Some conflict
      ∧ env out = 2
      ∧ calls out = [CallFinalize "uninstall-helm-release"].
Proof.
  split; [exact nginx_cr_finalizer|].
  apply (proj1 (X13_Finalize_keeps_uninstall_finalizer_on_any_error
                  UninstallRelease_double StatusFor_double
                  updateResourceStatus_failing Now_double nginx_cr 0
                  nginx_cr_finalizer)
           (Some {| Manifest := "" |}) 1 conflict nginx_cr 2); reflexivity.
Defined.

Lemma X15_witness :
  hook_ret (hook three_kinds ∅ 0) = None
  ∧ (CallWatch deployment_kind ∈ hook_calls (hook three_kinds ∅ 0)
     ↔ deployment_kind
         ∈ doc_kinds GroupVersionKind_double
             (NewDecoder_double (Manifest three_kinds))
       ∧ (deployment_kind ∉ (∅ : gset GroupVersionKind))
       ∧ ¬ (RESTMapping_double (GroupKind_of owner_double)
              (Version owner_double) = Ok RESTScopeNameNamespace
            ∧ RESTMapping_double (GroupKind_of deployment_kind)
                (Version deployment_kind) = Ok RESTScopeNameRoot)).
Proof.
  split; [by vm_compute|].
  apply (X15_releaseHook_watches_exactly_the_new_watchable_kinds
           NewDecoder_double GroupVersionKind_double RESTMapping_double
           Watch_double owner_double three_kinds ∅ 0 deployment_kind).
  by vm_compute.
Defined.

End FurtherControllerRuns.

Module FurtherClientRuns.
Import GoStrings OLMClient Apiext CRDTemplate Scaffolds Standins.
Import OLMFacts CRDTemplateFacts ScaffoldsFacts.

Lemma X17_witness :
  List_CSVs_double "olm" csvs_labelled = (csvs_labelled, None)
  ∧ GetInstalledVersion Quote_double semver_Parse_double no_such_error
      no_such_error List_CSVs_double "olm" csvs_labelled
    = match filter (λ csv, is_pkgServerCSV csv) csvs_labelled with
      | [] => ("", Some ErrOLMNotInstalled)
      | [csv] =>
          getOLMVersionFromPackageServerCSV Quote_double semver_Parse_double
            csv
      | first :: second :: _ =>
          ("", Some (ErrorString
                       ("more than one OLM (package server) version installed: "
                        +:+ Quote_double (CSV_Name first) +:+ " and "
                        +:+ Quote_double (CSV_Name second))))
      end.
Proof.
  split; [reflexivity|].
  apply (X17_GetInstalledVersion_by_package_server_CSVs
           Quote_double semver_Parse_double no_such_error no_such_error
           List_CSVs_double "olm" csvs_labelled csvs_labelled).
  reflexivity.
Defined.

Lemma X22_witness :
  (0 ≤ 2)%Z ∧ (0 ≤ 4)%Z
  ∧ ((∀ x y, "type: object" ≠ x +:+ String LF y) →
     indent 4 "type: object"
     = Some (Repeat " " (Z.to_nat 4) +:+ "type: object"))
  ∧ (∃ a' b', indent 4 "a:" = Some a' ∧ indent 4 "b: 1" = Some b'
       ∧ indent 4 ("a:" +:+ String LF "b: 1") = Some (a' +:+ String LF b'))
  ∧ indent 4 "type: object" ≫= indent 2 = indent (2 + 4) "type: object"
  ∧ indent 0 "type: object" = Some "type: object"
  ∧ (∀ k, (k < 0)%Z → indent k "type: object" = None).
Proof.
  split; [lia|]. split; [lia|].
  apply (X22_indent_pads_every_line 2 4 "a:" "b: 1" "type: object"); lia.
Defined.

Lemma X24_witness :
  loadSchema () Quote_double Unmarshal_double
    app_chart
  = (Some app_schema, None)
  ∧ let s := app_schema in
    let own :=
      if decide ("" ≠ "")
      then
        match Unmarshal_double "" with
        | inl schema => schema
        | inr _ => Props_zero ()
        end
      else Props_zero () in
    (None : option error) = None
    ∧ is_zero () s = false
    ∧ Props_Schema s = ""
    ∧ Props_Description s = Props_Description own
    ∧ Props_XPreserveUnknownFields s = Props_XPreserveUnknownFields own
    ∧ Props_Other s = Props_Other own
    ∧ Props_Type s
      = match Props_Properties own,
              filter
                (λ dep,
                   is_Some (loadSchema () Quote_double Unmarshal_double dep).1)
                [MkChart "cache" "" []; db_chart] with
        | None, _ :: _ => "object"
        | _, _ => Props_Type own
        end
    ∧ ∀ n,
        Props_Properties s ≫= (.!! n)
        = match last (filter
                        (λ dep,
                           Chart_Name dep = n
                           ∧ is_Some (loadSchema () Quote_double
                                        Unmarshal_double dep).1)
                        [MkChart "cache" "" []; db_chart]) with
          | Some dep => (loadSchema () Quote_double Unmarshal_double dep).1
          | None => Props_Properties own ≫= (.!! n)
          end.
Proof.
  split; [by vm_compute|].
  apply (X24_loadSchema_nests_dependency_schemas_by_name
           () Quote_double Unmarshal_double
           "app" "" [MkChart "cache" "" []; db_chart]
           app_schema None).
  by vm_compute.
Defined.

Lemma X28_witness :
  SpecSchema app_crd
  = (loadSchema () Quote_double Unmarshal_double app_chart).1
  ∧ let out :=
      SetTemplateDefaults () Join_bases_double Replace_double "v1 template"
        "v1beta1 template" app_crd in
    let specDescription :=
      "Spec defines the desired state of " +:+ Kind (Resource_ app_crd) in
    (Forall (λ c, Chart_Schema c = "") (charts app_chart) →
     SpecSchema out.2
     = Some (MkProps "" specDescription "object" None (Some true) ()))
    ∧ (∀ s,
         (loadSchema () Quote_double Unmarshal_double app_chart).1 = Some s →
         SpecSchema out.2
         = Some (MkProps ""
                   (if decide (Props_Description s = "") then specDescription
                    else Props_Description s)
                   (Props_Type s) (Props_Properties s)
                   (Props_XPreserveUnknownFields s) (Props_Other s))).
Proof.
  split; [by vm_compute|].
  apply (X28_scaffold_CRD_takes_the_chart_schema
           () Quote_double Unmarshal_double Join_bases_double Replace_double
           "v1 template" "v1beta1 template" app_chart app_crd).
  by vm_compute.
Defined.

End FurtherClientRuns.
